(** * ogen: configuration resolution and lifecycle, verified against the Go source

    The development follows the two Go files of the program:
    - the configuration loader ([registerFlag], [Config.validate], [loadConfig]);
    - [main.go] ([rollDice], [generateData], [servePprof], [handleTermination],
      the [teardown] closure of [main]).

    Library calls ([os.Getenv], [os.Stat], [godotenv.Load], [flag.StringVar],
    [flag.Parse], [errors.Join], [rand.Intn], the OpenTelemetry meter) are
    modelled by their documented behaviour over an explicit process state. *)

From stdpp Require Import gmap strings list fin_maps.
From Stdlib Require Import ZArith Lia Ascii DecimalString.

Local Open Scope string_scope.
Local Open Scope Z_scope.

(* ===================================================================== *)
(** ** Go errors *)
(* ===================================================================== *)

Module GoError.

(** The three shapes of error value the program builds. *)
#[warnings="-register-all"]
Inductive error : Type :=
| Errorf (msg : string)                    (* fmt.Errorf without a verb *)
| Wrapf (prefix : string) (err : error)    (* fmt.Errorf("prefix: %w", err) *)
| joinError (errs : list error).           (* the value errors.Join returns *)

(** [errors.Join]: nil arguments are dropped; nil when none is left,
    otherwise one [joinError] holding the remaining ones in order (an
    argument that is itself a [joinError] is kept as one element). *)
Definition Join (errs : list (option error)) : option error :=
  match omap id errs with
  | [] => None
  | es => Some (joinError es)
  end.

(** The sub-errors a (possibly nested) join enumerates, left to right. *)
Fixpoint leaves (e : error) : list error :=
  match e with
  | joinError errs => flat_map leaves errs
  | _ => [e]
  end.

Definition sub_errors (e : option error) : list error :=
  match e with
  | None => []
  | Some e => leaves e
  end.

End GoError.
Import GoError.

(* ===================================================================== *)
(** ** The configuration struct and pointers to its string fields *)
(* ===================================================================== *)

(** [type Config struct]; the three ports are uint64. *)
Record Config : Type := mkConfig {
  CollectorGRPCURL : string;
  CollectorHTTPURL : string;
  ServiceName : string;
  PprofURL : string;
  MetricsPort : Z;
  TracerPort : Z;
  LoggerPort : Z
}.

(** [Config{}]: every field at its zero value. *)
Definition zeroConfig : Config := mkConfig "" "" "" "" 0 0 0.

(** The string fields of [Config], the ones a [*string] can point into. *)
Inductive field : Type := FCollectorGRPCURL | FCollectorHTTPURL | FServiceName | FPprofURL.

#[global] Instance field_eq_dec : EqDecision field.
Proof. solve_decision. Defined.

Definition getField (f : field) (c : Config) : string :=
  match f with
  | FCollectorGRPCURL => CollectorGRPCURL c
  | FCollectorHTTPURL => CollectorHTTPURL c
  | FServiceName => ServiceName c
  | FPprofURL => PprofURL c
  end.

Definition setField (f : field) (v : string) (c : Config) : Config :=
  match f with
  | FCollectorGRPCURL =>
      mkConfig v (CollectorHTTPURL c) (ServiceName c) (PprofURL c)
               (MetricsPort c) (TracerPort c) (LoggerPort c)
  | FCollectorHTTPURL =>
      mkConfig (CollectorGRPCURL c) v (ServiceName c) (PprofURL c)
               (MetricsPort c) (TracerPort c) (LoggerPort c)
  | FServiceName =>
      mkConfig (CollectorGRPCURL c) (CollectorHTTPURL c) v (PprofURL c)
               (MetricsPort c) (TracerPort c) (LoggerPort c)
  | FPprofURL =>
      mkConfig (CollectorGRPCURL c) (CollectorHTTPURL c) (ServiceName c) v
               (MetricsPort c) (TracerPort c) (LoggerPort c)
  end.

(** The fields no [*string] of the program points into. *)
Definition ports (c : Config) : Z * Z * Z := (MetricsPort c, TracerPort c, LoggerPort c).

(** Addresses of [Config] objects, and [&cfg.Field]. *)
Definition loc : Type := nat.
Definition ptr : Type := loc * field.

(** The flag name (and environment key) [loadConfig] uses for each field. *)
Definition flagName (f : field) : string :=
  match f with
  | FCollectorGRPCURL => "collectorgrpcurl"
  | FCollectorHTTPURL => "collectorhttpurl"
  | FServiceName => "servicename"
  | FPprofURL => "pprofurl"
  end.

Definition flagUsage (f : field) : string :=
  match f with
  | FCollectorGRPCURL => "the collector grpc endpoint"
  | FCollectorHTTPURL => "the collector http endpoint"
  | FServiceName => "the service name"
  | FPprofURL => "the pprof endpoint"
  end.

Definition allFields : list field :=
  [FCollectorGRPCURL; FCollectorHTTPURL; FServiceName; FPprofURL].

(** The message [validate] reports for an empty field. *)
Definition requiredMsg (f : field) : string :=
  match f with
  | FCollectorGRPCURL => "collector grpc endpoint required"
  | FCollectorHTTPURL => "collector http endpoint required"
  | FServiceName => "service name required"
  | FPprofURL => "pprof endpoint required"
  end.

(** [func (c *Config) validate() error] *)
Definition validate (c : Config) : option error :=
  let errs : option error := None in
  let errs :=
    if decide (CollectorGRPCURL c = "")
    then Join [errs; Some (Errorf "collector grpc endpoint required")]
    else errs in
  let errs :=
    if decide (CollectorHTTPURL c = "")
    then Join [errs; Some (Errorf "collector http endpoint required")]
    else errs in
  let errs :=
    if decide (ServiceName c = "")
    then Join [errs; Some (Errorf "service name required")]
    else errs in
  let errs :=
    if decide (PprofURL c = "")
    then Join [errs; Some (Errorf "pprof endpoint required")]
    else errs in
  errs.

(* ===================================================================== *)
(** ** Process state: environment, files, flag package, heap *)
(* ===================================================================== *)

(** A flag of [flag.CommandLine]: a string flag writing through [Target]. *)
Record Flag : Type := mkFlag {
  Target : ptr;
  Usage : string;
  DefValue : string
}.

(** Library calls whose number or order a property speaks about. *)
Inductive Event : Type :=
| EvLoad (path : string)        (* godotenv.Load ran to completion *)
| EvStringVar (name : string)   (* flag.StringVar defined a flag *)
| EvParse.                      (* flag.Parse was called *)

#[global] Instance Event_eq_dec : EqDecision Event.
Proof. solve_decision. Defined.

(** What reading a path as a dotenv file gives: an error (unreadable or
    malformed) or its key/value pairs. *)
Definition dotenv : Type := error + gmap string string.

Record Process : Type := mkProcess {
  environ : gmap string string;          (* os.Environ *)
  files : gmap string dotenv;            (* paths os.Stat finds *)
  osArgs : list string;                  (* os.Args[1:] *)
  registeredFlags : gmap string bool;    (* var registeredFlags *)
  formal : gmap string Flag;             (* flag.CommandLine.formal *)
  heap : gmap loc Config;                (* the Config objects *)
  trace : list Event                     (* newest event last *)
}.

Definition set_environ (e : gmap string string) (p : Process) : Process :=
  mkProcess e (files p) (osArgs p) (registeredFlags p) (formal p) (heap p) (trace p).
Definition set_registeredFlags (r : gmap string bool) (p : Process) : Process :=
  mkProcess (environ p) (files p) (osArgs p) r (formal p) (heap p) (trace p).
Definition set_formal (f : gmap string Flag) (p : Process) : Process :=
  mkProcess (environ p) (files p) (osArgs p) (registeredFlags p) f (heap p) (trace p).
Definition set_heap (h : gmap loc Config) (p : Process) : Process :=
  mkProcess (environ p) (files p) (osArgs p) (registeredFlags p) (formal p) h (trace p).
Definition emit (ev : Event) (p : Process) : Process :=
  mkProcess (environ p) (files p) (osArgs p) (registeredFlags p) (formal p) (heap p)
            (trace p ++ [ev]).

(** Reading an object: memory not written yet holds the zero value. *)
Definition deref (l : loc) (p : Process) : Config := default zeroConfig (heap p !! l).

(** [*value = v] *)
Definition store (q : ptr) (v : string) (p : Process) : Process :=
  set_heap (<[q.1 := setField q.2 v (deref q.1 p)]> (heap p)) p.

(** The panics of [FlagSet.Var], by the check that fails and the flag name.
    The text Go formats for them is, for [flag.CommandLine] (the flag set
    named [os.Args[0]]): [flag %q begins with -], [flag %q contains =], and
    [<os.Args[0]> flag redefined: <name>]. *)
Inductive panicValue : Type :=
| FlagBeginsWithDash (name : string)
| FlagContainsEquals (name : string)
| FlagRedefined (name : string).

(** How a call ends: it returns, or the process exits ([os.Exit]) or panics. *)
Inductive Outcome (A : Type) : Type :=
| Return (a : A) (p : Process)
| Exit (code : Z) (p : Process)
| Panic (v : panicValue) (p : Process).
Arguments Return {A} a p.
Arguments Exit {A} code p.
Arguments Panic {A} v p.

Definition M (A : Type) : Type := Process -> Outcome A.

Definition ret {A : Type} (a : A) : M A := fun p => Return a p.

Definition bind {A B : Type} (m : M A) (k : A -> M B) : M B :=
  fun p =>
    match m p with
    | Return a p' => k a p'
    | Exit code p' => Exit code p'
    | Panic v p' => Panic v p'
    end.

Notation "x <- m ;; k" := (bind m (fun x => k))
  (at level 100, m at next level, right associativity).
Notation "m ;; k" := (bind m (fun _ => k))
  (at level 100, right associativity).

Definition modify (f : Process -> Process) : M unit := fun p => Return tt (f p).
Definition gets {A : Type} (f : Process -> A) : M A := fun p => Return (f p) p.

(** The final state of an outcome, whichever way the call ended. *)
Definition final {A : Type} (o : Outcome A) : Process :=
  match o with
  | Return _ p | Exit _ p | Panic _ p => p
  end.

(* ===================================================================== *)
(** ** The library calls *)
(* ===================================================================== *)

(** [os.Getenv]: the empty string for an unset variable. *)
Definition Getenv (key : string) (p : Process) : string :=
  default "" (environ p !! key).

(** [os.Setenv] *)
Definition Setenv (key value : string) : M unit :=
  modify (fun p => set_environ (<[key := value]> (environ p)) p).

(** [os.Stat(path)]: the error is nil exactly for a path that exists. *)
Definition Stat (path : string) (p : Process) : bool :=
  bool_decide (is_Some (files p !! path)).

(** [godotenv.Load(path)]: the file is read and parsed as a whole first; on
    success every key that is not in the environment yet is set
    ([os.Setenv]); keys already present keep their value. *)
Definition godotenv_Load (path : string) : M (option error) :=
  fun p =>
    match files p !! path with
    | None => Return (Some (Errorf ("open " +:+ path +:+ ": no such file or directory"))) p
    | Some (inl err) => Return (Some err) p
    | Some (inr envMap) =>
        Return None (emit (EvLoad path) (set_environ (environ p ∪ envMap) p))
    end.

(** [flag.StringVar(p, name, value, usage)] on [flag.CommandLine]: the
    variable takes the default at once; defining a name twice, or a name that
    begins with a dash or holds an equals sign, panics. *)
Definition flag_StringVar (q : ptr) (name value usage : string) : M unit :=
  fun p =>
    let p := store q value p in
    if String.prefix "-" name then Panic (FlagBeginsWithDash name) p
    else if bool_decide (is_Some (String.index 0 "=" name))
    then Panic (FlagContainsEquals name) p
    else match formal p !! name with
         | Some _ => Panic (FlagRedefined name) p
         | None =>
             Return tt (emit (EvStringVar name)
                          (set_formal (<[name := mkFlag q usage value]> (formal p)) p))
         end.

(** What [parseOne] reads off one argument. *)
Inductive token : Type :=
| TStop                                     (* not a flag: parsing stops *)
| TTerminator                               (* "--" *)
| TBad                                      (* bad flag syntax *)
| TFlag (name : string) (value : option string).

(** [name[:i]] and [name[i+1:]] for the first equals sign. *)
Fixpoint cutEq (s : string) : option (string * string) :=
  match s with
  | EmptyString => None
  | String c r =>
      if Ascii.eqb c "="%char then Some (EmptyString, r)
      else match cutEq r with
           | Some (n, v) => Some (String c n, v)
           | None => None
           end
  end.

(** The head of [FlagSet.parseOne]: dashes, name, optional [=value]. *)
Definition scanArg (s : string) : token :=
  match s with
  | String c0 (String c1 rest as s1) =>
      if negb (Ascii.eqb c0 "-"%char) then TStop
      else if Ascii.eqb c1 "-"%char && bool_decide (rest = EmptyString) then TTerminator
      else
        let name := if Ascii.eqb c1 "-"%char then rest else s1 in
        match name with
        | EmptyString => TBad
        | String n0 name' =>
            if Ascii.eqb n0 "-"%char || Ascii.eqb n0 "="%char then TBad
            else match cutEq name' with     (* an equals sign cannot be first *)
                 | Some (n, v) => TFlag (String n0 n) (Some v)
                 | None => TFlag name None
                 end
        end
  | _ => TStop
  end.

(** The loop of [FlagSet.Parse] under [ExitOnError]: each flag must be
    defined ([-h] and [-help] print the usage and exit 0 otherwise), takes its
    value after the equals sign or from the next argument, and is set. *)
Fixpoint parseArgs (args : list string) : M unit :=
  fun p =>
    match args with
    | [] => Return tt p
    | a :: rest =>
        match scanArg a with
        | TStop | TTerminator => Return tt p
        | TBad => Exit 2 p
        | TFlag name value =>
            match formal p !! name with
            | None =>
                if bool_decide (name = "help" ∨ name = "h") then Exit 0 p else Exit 2 p
            | Some fl =>
                match value with
                | Some v => parseArgs rest (store (Target fl) v p)
                | None =>
                    match rest with
                    | v :: rest' => parseArgs rest' (store (Target fl) v p)
                    | [] => Exit 2 p                 (* flag needs an argument *)
                    end
                end
            end
        end
    end.

(** [flag.Parse()] *)
Definition flag_Parse : M unit :=
  fun p => parseArgs (osArgs p) (emit EvParse p).

(* ===================================================================== *)
(** ** registerFlag and loadConfig *)
(* ===================================================================== *)

(** [registeredFlags[name]]: false for a missing key. *)
Definition registered (name : string) (p : Process) : bool :=
  default false (registeredFlags p !! name).

(** [func registerFlag(name string, value *string, usage string) error] *)
Definition registerFlag (name : string) (value : ptr) (usage : string) : M (option error) :=
  defaultValue <- gets (Getenv name) ;;
  (fun p =>
     if negb (registered name p)
     then (flag_StringVar value name defaultValue usage ;;
           modify (fun p => set_registeredFlags (<[name := true]> (registeredFlags p)) p)) p
     else Return tt p) ;;
  (fun p =>
     if registered name p && negb (bool_decide (defaultValue = ""))
     then Return tt (store value defaultValue p)
     else Return tt p) ;;
  ret None.

(** [func loadConfig(cfg *Config, path string) error] *)
Definition loadConfig (cfg : loc) (path : string) : M (option error) :=
  let path := if bool_decide (path = "") then ".env" else path in
  fun p =>
    let continue : M (option error) :=
      registerFlag "collectorgrpcurl" (cfg, FCollectorGRPCURL) "the collector grpc endpoint" ;;
      registerFlag "collectorhttpurl" (cfg, FCollectorHTTPURL) "the collector http endpoint" ;;
      registerFlag "servicename" (cfg, FServiceName) "the service name" ;;
      registerFlag "pprofurl" (cfg, FPprofURL) "the pprof endpoint" ;;
      flag_Parse ;;
      gets (fun p => validate (deref cfg p)) in
    if Stat path p then
      match godotenv_Load path p with
      | Return (Some err) p' => Return (Some (Wrapf "loading .env file: " err)) p'
      | Return None p' => continue p'
      | Exit code p' => Exit code p'
      | Panic v p' => Panic v p'
      end
    else continue p.

(** The call sequence of [loadConfig] once the dotenv step is over. *)
Definition registerAndParse (cfg : loc) : M (option error) :=
  registerFlag "collectorgrpcurl" (cfg, FCollectorGRPCURL) "the collector grpc endpoint" ;;
  registerFlag "collectorhttpurl" (cfg, FCollectorHTTPURL) "the collector http endpoint" ;;
  registerFlag "servicename" (cfg, FServiceName) "the service name" ;;
  registerFlag "pprofurl" (cfg, FPprofURL) "the pprof endpoint" ;;
  flag_Parse ;;
  gets (fun p => validate (deref cfg p)).

(** The path [loadConfig] looks at. *)
Definition resolvePath (path : string) : string :=
  if bool_decide (path = "") then ".env" else path.

(** The sub-errors [validate] is expected to report: one per empty field,
    in the order of the struct. *)
Definition missing (c : Config) : list error :=
  (fun f => Errorf (requiredMsg f)) <$> filter (fun f => getField f c = "") allFields.


(* ===================================================================== *)
(** ** Specification vocabulary for the resolver *)
(* ===================================================================== *)

(** The flags a command line passes, as [FlagSet.Parse] reads it: the
    name/value pairs up to the first argument that is not a flag. *)
Fixpoint passedFlags (args : list string) : list (string * string) :=
  match args with
  | [] => []
  | a :: rest =>
      match scanArg a with
      | TFlag name (Some v) => (name, v) :: passedFlags rest
      | TFlag name None =>
          match rest with
          | v :: rest' => (name, v) :: passedFlags rest'
          | [] => []
          end
      | _ => []
      end
  end.

(** The value a command line gives to a flag: its last occurrence. *)
Fixpoint lastPassed (name : string) (toks : list (string * string)) : option string :=
  match toks with
  | [] => None
  | (n, v) :: toks' =>
      match lastPassed name toks' with
      | Some v' => Some v'
      | None => if decide (n = name) then Some v else None
      end
  end.

(** Setting one passed flag: [flag.Value.Set] through the flag's pointer. *)
Definition setFlag (p : Process) (tok : string * string) : Process :=
  match formal p !! tok.1 with
  | Some fl => store (Target fl) tok.2 p
  | None => p
  end.

(** The state [godotenv.Load] leaves when the path is absent or loads. *)
Definition afterLoad (path : string) (p : Process) : Process :=
  match files p !! path with
  | Some (inr envMap) => emit (EvLoad path) (set_environ (environ p ∪ envMap) p)
  | _ => p
  end.

(** The state one [registerFlag] call leaves when it does not panic. *)
Definition afterRegister (name : string) (q : ptr) (usage : string) (p : Process) : Process :=
  let dv := Getenv name p in
  if registered name p
  then (if bool_decide (dv = "") then p else store q dv p)
  else
    let p1 := store q dv p in
    let p2 := emit (EvStringVar name)
                (set_formal (<[name := mkFlag q usage dv]> (formal p1)) p1) in
    let p3 := set_registeredFlags (<[name := true]> (registeredFlags p2)) p2 in
    if bool_decide (dv = "") then p3 else store q dv p3.

(** Every flag defined in the process is one of the four of [loadConfig],
    recorded in [registeredFlags] and bound to the fields of [cfg]. This
    holds in a process that has defined no flag yet, and [loadConfig cfg]
    keeps it. *)
Definition boundTo (cfg : loc) (p : Process) : Prop :=
  ∀ name fl, formal p !! name = Some fl →
    registered name p = true ∧ ∃ f, name = flagName f ∧ Target fl = (cfg, f).

(** The state the four [registerFlag] calls of [loadConfig] leave. *)
Definition afterRegisterAll (cfg : loc) (fs : list field) (p : Process) : Process :=
  foldl (fun p f => afterRegister (flagName f) (cfg, f) (flagUsage f) p) p fs.

(** The value registration gives a field of [cfg]: the environment value
    (after the dotenv merge), except that an empty one leaves the field of an
    already registered flag as it was. *)
Definition resolved (cfg : loc) (f : field) (p : Process) : string :=
  let dv := Getenv (flagName f) p in
  if registered (flagName f) p && bool_decide (dv = "")
  then getField f (deref cfg p)
  else dv.

(** The value the three sources give a field of [cfg]: the flag when it is
    passed, the resolved default otherwise. *)
Definition merged (cfg : loc) (f : field) (p : Process) : string :=
  default (resolved cfg f p) (lastPassed (flagName f) (passedFlags (osArgs p))).

(** How often the trace records a call. *)
Definition parseCount (p : Process) : nat :=
  length (filter (fun ev => ev = EvParse) (trace p)).

Definition stringVarCount (name : string) (p : Process) : nat :=
  length (filter (fun ev => ev = EvStringVar name) (trace p)).

(** A process that has not touched the flag package yet. *)
Definition freshProcess (env : gmap string string) (fs : gmap string dotenv)
    (args : list string) (h : gmap loc Config) : Process :=
  mkProcess env fs args ∅ ∅ h [].

(** [p'] differs from [p] at most in the string fields of Config objects. *)
Definition heapOnly (p p' : Process) : Prop :=
  environ p' = environ p ∧ files p' = files p ∧ osArgs p' = osArgs p ∧
  registeredFlags p' = registeredFlags p ∧ formal p' = formal p ∧
  trace p' = trace p ∧ ∀ l, ports (deref l p') = ports (deref l p).

(** How a call ended, without the state. *)
Definition ending {A : Type} (o : Outcome A) : option (Z + panicValue) :=
  match o with
  | Return _ _ => None
  | Exit code _ => Some (inl code)
  | Panic v _ => Some (inr v)
  end.

(** [p'] has the environment [p] had, and the same ports in every Config. *)
Definition envPorts (p p' : Process) : Prop :=
  environ p' = environ p ∧ ∀ l, ports (deref l p') = ports (deref l p).

(** Concrete processes used as test inputs. *)
Definition demoConfig : Config :=
  mkConfig "localhost:4317" "localhost:4318" "ogen" "localhost:1777" 0 0 0.

Definition demoEnv : gmap string string :=
  {[ "collectorgrpcurl" := "localhost:4317"; "collectorhttpurl" := "localhost:4318";
     "servicename" := "ogen"; "pprofurl" := "localhost:1777" ]}.

(** A process whose [.env] does not parse, with a populated Config at 0. *)
Definition malformedProcess : Process :=
  freshProcess ∅ {[ ".env" := inl (Errorf "unexpected character in variable name") ]}
    [] {[ 0%nat := demoConfig ]}.

(** A first call with the same key in the environment, in [.env] and on the
    command line. *)
Definition threeSources : Process :=
  freshProcess {[ "servicename" := "from-env"; "pprofurl" := "env:1777" ]}
    {[ ".env" := inr {[ "servicename" := "from-file"; "pprofurl" := "file:1777";
                        "collectorgrpcurl" := "file:4317" ]} ]}
    ["-servicename=from-flag"; "-collectorhttpurl"; "flag:4318"] ∅.

(** A process with the four variables set and nothing else. *)
Definition envOnly : Process := freshProcess demoEnv ∅ [] ∅.

(** Two calls in a row on the same Config, as the tests make them. *)
Definition loadConfigTwice (cfg : loc) (path1 path2 : string) : M (option error) :=
  loadConfig cfg path1 ;; loadConfig cfg path2.

(** [TestLoadConfig]: a call with nothing set, then the four variables are
    set and a second call is made, then a third one on a dotenv file. *)
Definition testLoadConfig : M (option error * option error * option error) :=
  err1 <- loadConfig 0%nat "" ;;
  Setenv "collectorgrpcurl" "localhost:4317" ;;
  Setenv "collectorhttpurl" "localhost:4318" ;;
  Setenv "servicename" "ogen" ;;
  Setenv "pprofurl" "localhost:1777" ;;
  err2 <- loadConfig 0%nat "" ;;
  err3 <- loadConfig 0%nat "data/testenv" ;;
  ret (err1, err2, err3).

Definition testProcess : Process :=
  freshProcess ∅ {[ "data/testenv" := inr demoEnv ]} [] ∅.

(* ===================================================================== *)
(** ** main.go: the dice roll *)
(* ===================================================================== *)

(** int64 arithmetic wraps around. *)
Definition wrap64 (z : Z) : Z := (z + 2 ^ 63) `mod` 2 ^ 64 - 2 ^ 63.

(** [time.Second], a [time.Duration] in nanoseconds. *)
Definition Second : Z := 1000000000.

(** A counter instrument, as the handle the meter returned for it. *)
Definition Counter : Type := string.

(** What the three tasks and the teardown do that others can observe. *)
Inductive LEvent : Type :=
| SpanStart (name : string)
| SpanEnd
| Print (roll : Z)                              (* fmt.Print(roll) *)
| LogInfo (msg : string) (roll : Z)             (* logger.LogAttrs at LevelInfo *)
| LogError (msg : string) (name : string) (number : option Z)
| Sleep (d : Z)                                 (* time.Sleep(d) *)
| CounterAdd (c : Counter) (n : Z)              (* counter.Add(ctx, n) *)
| CancelFired                                   (* the context is cancelled *)
| ServerClose                                   (* ppf.Close() *)
| LogShutdown                                   (* logCleanup(ctx) *)
| TraceShutdown                                 (* traceCleanup(ctx) *)
| MeterShutdown.                                (* meterCleanup(ctx) *)

#[global] Instance LEvent_eq_dec : EqDecision LEvent.
Proof. solve_decision. Defined.

(** The [switch] of [rollDice]: the message logged and the duration slept,
    none when no case applies. Go's [%] and [/] truncate towards zero. *)
Definition rollCase (roll : Z) : option (string * Z) :=
  if Z.eqb roll 0 then Some ("Rolled zero", Second)
  else if Z.eqb (Z.rem roll 2) 0 then Some ("Rolled even", wrap64 (Second * Z.quot roll 2))
  else if Z.eqb roll 1 then Some ("Rolled one", Second)
  else if negb (Z.eqb (Z.rem roll 2) 0) then Some ("Rolled odd", wrap64 (Second * Z.quot roll 2))
  else None.

(** [func rollDice(ctx, roll, cfg, logger)] *)
Definition rollDice (roll : Z) : list LEvent :=
  [SpanStart "dice_roll"; Print roll] ++
  match rollCase roll with
  | Some (msg, d) => [LogInfo msg roll; Sleep d]
  | None => []
  end ++
  [SpanEnd].

(** The delay of a roll: what [rollDice] passes to [time.Sleep]. *)
Definition delay (roll : Z) : Z :=
  match rollCase roll with
  | Some (_, d) => d
  | None => 0
  end.

(** The durations slept in a run of events. *)
Definition sleeps (evs : list LEvent) : list Z :=
  omap (fun ev => match ev with Sleep d => Some d | _ => None end) evs.

(* ===================================================================== *)
(** ** main.go: generateData *)
(* ===================================================================== *)

(** [meter.Int64Counter(name, metric.WithDescription(description))]: a
    counter, or an error (none). *)
Definition Meter : Type := string → string → option Counter.

(** [%d] of [fmt.Sprintf] *)
Definition itoa (z : Z) : string := NilZero.string_of_int (Z.to_int z).

Definition rollCounterName (idx : Z) : string := "roll-" +:+ itoa idx +:+ "-count".

Definition rollCounterDescription (idx : Z) : string :=
  "Counter the total number of dice rolls for the number " +:+ itoa idx.

(** The loop [for idx := int64(0); idx < 11; idx++] over its index values:
    the index whose counter cannot be created, or the filled map. *)
Fixpoint rollCounters (meter : Meter) (idxs : list Z) (rollFreq : gmap Z Counter)
    : Z + gmap Z Counter :=
  match idxs with
  | [] => inr rollFreq
  | idx :: rest =>
      match meter (rollCounterName idx) (rollCounterDescription idx) with
      | None => inl idx
      | Some counter => rollCounters meter rest (<[idx := counter]> rollFreq)
      end
  end.

(** The setup phase of [generateData]: the error it logs before returning
    early, or the counters the loop works with. *)
Definition generateData_setup (meter : Meter) : LEvent + Counter * gmap Z Counter :=
  match meter "dice-rolls" "Counts the total number of dice rolls" with
  | None => inl (LogError "Creating counter" "dice-rolls" None)
  | Some diceRolls =>
      match rollCounters meter (seqZ 0 11) ∅ with
      | inl idx => inl (LogError "Creating roll counter" "roll" (Some idx))
      | inr rollFreq => inr (diceRolls, rollFreq)
      end
  end.

(** [rand.Intn(n)] for [n > 0]: a value in [0, n), here as the reduction of
    the raw value [rnd] the source produces at this call. *)
Definition Intn (rnd n : Z) : Z := rnd `mod` n.

(** The [default] branch of the loop: one roll. [rollFreq[roll]] is nil for
    a missing key, and [Add] on it panics (none). *)
Definition generateData_roll (rnd : Z) (diceRolls : Counter) (rollFreq : gmap Z Counter)
    : option (list LEvent) :=
  let roll := Intn rnd 10 in
  match rollFreq !! roll with
  | Some counter => Some (rollDice roll ++ [CounterAdd diceRolls 1; CounterAdd counter 1])%list
  | None => None
  end.

(* ===================================================================== *)
(** ** main.go: the three tasks and the shutdown *)
(* ===================================================================== *)

(** The [teardown] closure of [main]. *)
Definition teardown : list LEvent :=
  [ServerClose; LogShutdown; TraceShutdown; MeterShutdown].

Inductive Task : Type := Running | Returned.

(** [generateData]: before its setup, in its loop, returned, or panicked. *)
Inductive Emitter : Type :=
| ESetup
| ELoop (diceRolls : Counter) (rollFreq : gmap Z Counter)
| EReturned
| EPanicked.

(** The state the goroutines of [main] share, from the point where
    [handleTermination] has registered its signal channel. *)
Record Sys : Type := mkSys {
  cancelled : bool;        (* ctx.Done() is closed *)
  interrupt : nat;         (* signals waiting in the channel, capacity 1 *)
  serverClosed : bool;     (* the pprof server was closed *)
  wg : Z;                  (* the WaitGroup counter *)
  listener : Task;         (* handleTermination *)
  emitter : Emitter;       (* generateData *)
  server : Task;           (* servePprof *)
  exited : bool;           (* main returned *)
  log : list LEvent        (* newest event last *)
}.

(** After [wg.Add(3)] and the three [go] statements. *)
Definition init : Sys := mkSys false 0 false 3 Running ESetup Running false [].

(** What can happen next: the environment cancels or signals, or one of the
    goroutines takes its next step. *)
Inductive Label : Type :=
| ExternalCancel              (* a caller of cancel() other than the listener *)
| Signal                      (* the OS delivers an interrupt *)
| SelectDone                  (* handleTermination: case <-ctx.Done() *)
| SelectInterrupt             (* handleTermination: case <-interrupt *)
| EmitterSetup                (* generateData up to its loop *)
| EmitterIterate (rnd : Z)    (* generateData: one turn of its loop *)
| ServeFails                  (* ListenAndServe fails, server not closed *)
| ServeClosed                 (* ListenAndServe returns ErrServerClosed *)
| MainExit.                   (* wg.Wait() returns, main returns *)

Definition say (evs : list LEvent) (s : Sys) : Sys :=
  mkSys (cancelled s) (interrupt s) (serverClosed s) (wg s) (listener s) (emitter s)
        (server s) (exited s) (log s ++ evs).

(** [cancel()]: the first call closes [ctx.Done()], later calls do nothing. *)
Definition cancel (s : Sys) : Sys :=
  if cancelled s then s
  else mkSys true (interrupt s) (serverClosed s) (wg s) (listener s) (emitter s)
             (server s) (exited s) (log s ++ [CancelFired]).

(** [wg.Done()] *)
Definition wgDone (s : Sys) : Sys :=
  mkSys (cancelled s) (interrupt s) (serverClosed s) (wg s - 1) (listener s) (emitter s)
        (server s) (exited s) (log s).

Definition set_listener (t : Task) (s : Sys) : Sys :=
  mkSys (cancelled s) (interrupt s) (serverClosed s) (wg s) t (emitter s)
        (server s) (exited s) (log s).

Definition set_emitter (e : Emitter) (s : Sys) : Sys :=
  mkSys (cancelled s) (interrupt s) (serverClosed s) (wg s) (listener s) e
        (server s) (exited s) (log s).

Definition set_server (t : Task) (s : Sys) : Sys :=
  mkSys (cancelled s) (interrupt s) (serverClosed s) (wg s) (listener s) (emitter s)
        t (exited s) (log s).

Definition set_interrupt (n : nat) (s : Sys) : Sys :=
  mkSys (cancelled s) n (serverClosed s) (wg s) (listener s) (emitter s)
        (server s) (exited s) (log s).

(** [teardown(ctx)]: the four calls in order; the first closes the server. *)
Definition runTeardown (s : Sys) : Sys :=
  let s := say teardown s in
  mkSys (cancelled s) (interrupt s) true (wg s) (listener s) (emitter s)
        (server s) (exited s) (log s).

Definition set_exited (s : Sys) : Sys :=
  mkSys (cancelled s) (interrupt s) (serverClosed s) (wg s) (listener s) (emitter s)
        (server s) true (log s).

(** One turn of the loop of [handleTermination], for the [select] case
    taken; none when that case is not ready. *)
Definition handleTermination_step (l : Label) (s : Sys) : option Sys :=
  match listener s, l with
  | Running, SelectDone =>
      if cancelled s
      then Some (wgDone (set_listener Returned (runTeardown s)))   (* teardown(ctx); return *)
      else None
  | Running, SelectInterrupt =>
      match interrupt s with
      | S n => Some (cancel (set_interrupt n s))                    (* cancel() *)
      | O => None
      end
  | _, _ => None
  end.

(** A step of [generateData]. *)
Definition generateData_step (meter : Meter) (l : Label) (s : Sys) : option Sys :=
  match emitter s, l with
  | ESetup, EmitterSetup =>
      match generateData_setup meter with
      | inl ev => Some (wgDone (set_emitter EReturned (say [ev] s)))
      | inr (diceRolls, rollFreq) => Some (set_emitter (ELoop diceRolls rollFreq) s)
      end
  | ELoop diceRolls rollFreq, EmitterIterate rnd =>
      if cancelled s
      then Some (wgDone (set_emitter EReturned s))                  (* case <-ctx.Done() *)
      else match generateData_roll rnd diceRolls rollFreq with
           | Some evs => Some (say evs s)
           | None => Some (set_emitter EPanicked s)
           end
  | _, _ => None
  end.

(** A step of [servePprof]: [ListenAndServe] returns; only an error other
    than [ErrServerClosed] is logged. *)
Definition servePprof_step (l : Label) (s : Sys) : option Sys :=
  match server s, l with
  | Running, ServeFails =>
      if serverClosed s then None
      else Some (wgDone (set_server Returned
                   (say [LogError "Serving pprof data" "err" None] s)))
  | Running, ServeClosed =>
      if serverClosed s then Some (wgDone (set_server Returned s)) else None
  | _, _ => None
  end.

(** One step of the whole program; none when the step cannot be taken. *)
Definition step (meter : Meter) (l : Label) (s : Sys) : option Sys :=
  if exited s then None
  else match l with
       | ExternalCancel => Some (cancel s)
       | Signal =>
           (* signal.Notify does not block: a signal is dropped when the
              channel is full *)
           Some (if decide (interrupt s < 1)%nat then set_interrupt (S (interrupt s)) s else s)
       | SelectDone | SelectInterrupt => handleTermination_step l s
       | EmitterSetup | EmitterIterate _ => generateData_step meter l s
       | ServeFails | ServeClosed => servePprof_step l s
       | MainExit =>
           (* wg.Wait() returns at zero; the deferred cancel() runs *)
           if decide (wg s = 0) then Some (set_exited (cancel s)) else None
       end.

(** An execution: the steps of a schedule, one after the other. *)
Fixpoint run (meter : Meter) (ls : list Label) (s : Sys) : option Sys :=
  match ls with
  | [] => Some s
  | l :: ls' =>
      match step meter l s with
      | Some s' => run meter ls' s'
      | None => None
      end
  end.

Definition reachable (meter : Meter) (s : Sys) : Prop :=
  ∃ ls, run meter ls init = Some s.

Definition isTeardown (ev : LEvent) : bool :=
  match ev with
  | ServerClose | LogShutdown | TraceShutdown | MeterShutdown => true
  | _ => false
  end.

(** The teardown calls an execution has made so far, in order. *)
Definition teardownCalls (s : Sys) : list LEvent :=
  filter (fun ev => isTeardown ev) (log s).

(** How often the teardown sequence was started. *)
Definition teardownCount (s : Sys) : nat :=
  length (filter (fun ev => ev = ServerClose) (log s)).

(** Events that are no teardown call. *)
Definition quiet (evs : list LEvent) : Prop :=
  Forall (fun ev => isTeardown ev = false) evs.

(** The events of the roll loop in a log. *)
Definition isRollEvent (ev : LEvent) : bool :=
  match ev with
  | Print _ | LogInfo _ _ | Sleep _ | CounterAdd _ _ | SpanStart _ | SpanEnd => true
  | _ => false
  end.

(** A meter that creates every counter, and one that fails on the counter
    of the number 7. *)
Definition goodMeter : Meter := fun name _ => Some name.

Definition failingMeter : Meter :=
  fun name _ => if bool_decide (name = "roll-7-count") then None else Some name.

(** The instruments [generateData] asks the meter for, in order. *)
Definition instruments : list (string * string) :=
  ("dice-rolls", "Counts the total number of dice rolls") ::
  ((fun idx => (rollCounterName idx, rollCounterDescription idx)) <$> seqZ 0 11).

Definition running (t : Task) : Z :=
  match t with Running => 1 | Returned => 0 end.

Definition emitting (e : Emitter) : Z :=
  match e with EReturned => 0 | _ => 1 end.

(** The shutdown invariant: the context is cancelled exactly when the log
    says so; the listener has returned exactly when the teardown ran, once,
    in order, after the cancellation. *)
Definition shutdownInv (s : Sys) : Prop :=
  (cancelled s = true ↔ CancelFired ∈ log s) ∧
  match listener s with
  | Running => quiet (log s) ∧ serverClosed s = false
  | Returned =>
      cancelled s = true ∧ serverClosed s = true ∧
      ∃ pre post, log s = (pre ++ teardown ++ post)%list ∧
                  CancelFired ∈ pre ∧ quiet pre ∧ quiet post
  end.

(** The WaitGroup counts the tasks that have not returned, and [main]
    returns only at zero. *)
Definition wgInv (s : Sys) : Prop :=
  wg s = running (listener s) + emitting (emitter s) + running (server s) ∧
  (exited s = true → wg s = 0).

(** The loop of [generateData] works with the counters its setup made. *)
Definition emitterInv (meter : Meter) (s : Sys) : Prop :=
  match emitter s with
  | ELoop diceRolls rollFreq => generateData_setup meter = inr (diceRolls, rollFreq)
  | EPanicked => False
  | _ => True
  end.

(** The steps of the environment, the listener and the server. *)
Definition otherLabels : list Label :=
  [ExternalCancel; Signal; SelectDone; SelectInterrupt; ServeFails; ServeClosed].

(** A race: an interrupt and an external cancellation arrive together. *)
Definition raceSchedule : list Label :=
  [EmitterSetup; EmitterIterate 7; Signal; ExternalCancel; Signal;
   SelectInterrupt; EmitterIterate 3; SelectDone; ServeClosed; MainExit].

(** The state a schedule leads to ([init] when it cannot be run). *)
Definition stateAfter (meter : Meter) (ls : list Label) : Sys :=
  default init (run meter ls init).

(* ===================================================================== *)
(** ** Further vocabulary: flag names, clashes, command lines *)
(* ===================================================================== *)

(** A name [flag.StringVar] accepts: no leading dash, no equals sign. *)
Definition validFlagName (name : string) : Prop :=
  String.prefix "-" name = false ∧ String.index 0 "=" name = None.

(** None of the four flags is defined in [flag.CommandLine] without being
    recorded in [registeredFlags]. *)
Definition noClash (p : Process) : Prop :=
  ∀ f, registered (flagName f) p = false → formal p !! flagName f = None.

(** The four flag names. *)
Definition flagNames : list string := flagName <$> allFields.

(** A command line on which [flag.Parse] sets nothing: it is empty, or its
    first argument is not a flag or is the terminator [--]. *)
Definition noFlags (args : list string) : Prop :=
  match args with
  | [] => True
  | a :: _ => scanArg a = TStop ∨ scanArg a = TTerminator
  end.

(** A process in which another Config was loaded before, with a flag passed. *)
Definition otherConfigLoaded : Process :=
  final (loadConfig 0%nat ""
           (freshProcess demoEnv ∅ ["-servicename=from-flag"] ∅)).

(** A process in which something else defined the flag [servicename]. *)
Definition clashingProcess : Process :=
  mkProcess ∅ ∅ [] ∅ {[ "servicename" := mkFlag (7%nat, FServiceName) "" "" ]} ∅ [].

(** No environment, a dotenv file with the four values, no flag. *)
Definition dotenvOnly : Process :=
  freshProcess ∅ {[ ".env" := inr demoEnv ]} [] ∅.

(* ===================================================================== *)
(** ** Further vocabulary: counting in the log, shutting down *)
(* ===================================================================== *)

(** The rolls printed in a run of events. *)
Definition isPrint (ev : LEvent) : bool :=
  match ev with Print _ => true | _ => false end.

Definition prints (evs : list LEvent) : nat :=
  length (filter (fun ev => isPrint ev) evs).

(** How often a given number was rolled. *)
Definition printsOf (roll : Z) (evs : list LEvent) : nat :=
  length (filter (fun ev => ev = Print roll) evs).

(** How often one was added to a counter. *)
Definition addsTo (c : Counter) (evs : list LEvent) : nat :=
  length (filter (fun ev => ev = CounterAdd c 1) evs).

(** How often the context was cancelled. *)
Definition cancels (evs : list LEvent) : nat :=
  length (filter (fun ev => ev = CancelFired) evs).


(** A schedule that brings a program whose shutdown was triggered to its
    end: the listener tears down, the emitter polls the context, the server
    sees that it was closed, [main] returns. *)
Definition listenerSchedule (s : Sys) : list Label :=
  match listener s with
  | Returned => []
  | Running => if cancelled s then [SelectDone] else [SelectInterrupt; SelectDone]
  end.

Definition emitterSchedule (meter : Meter) (s : Sys) : list Label :=
  match emitter s with
  | ESetup =>
      match generateData_setup meter with
      | inl _ => [EmitterSetup]
      | inr _ => [EmitterSetup; EmitterIterate 0]
      end
  | ELoop _ _ => [EmitterIterate 0]
  | _ => []
  end.

Definition serverSchedule (s : Sys) : list Label :=
  match server s with
  | Running => [ServeClosed]
  | Returned => []
  end.

Definition shutdownSchedule (meter : Meter) (s : Sys) : list Label :=
  if exited s then []
  else (listenerSchedule s ++ emitterSchedule meter s ++ serverSchedule s ++ [MainExit])%list.
(* ===================================================================== *)
(** ** Fields, heap and validation: basic facts *)
(* ===================================================================== *)

Section FieldFacts.

Lemma getField_setField_eq f v c : getField f (setField f v c) = v.
Proof. by destruct f. Qed.

Lemma getField_setField_ne f g v c : f ≠ g → getField f (setField g v c) = getField f c.
Proof. by destruct f, g. Qed.

Lemma ports_setField f v c : ports (setField f v c) = ports c.
Proof. by destruct f. Qed.

Lemma flagName_inj f g : flagName f = flagName g → f = g.
Proof. by destruct f, g. Qed.

Lemma deref_store_eq l f v p : deref l (store (l, f) v p) = setField f v (deref l p).
Proof. unfold deref at 1, store. simpl. by rewrite lookup_insert_eq. Qed.

Lemma deref_store_ne l l' f v p : l ≠ l' → deref l (store (l', f) v p) = deref l p.
Proof. intros Hne. unfold deref, store. simpl. by rewrite lookup_insert_ne. Qed.

Lemma getField_store q v p : getField q.2 (deref q.1 (store q v p)) = v.
Proof. destruct q as [l f]. simpl. by rewrite deref_store_eq, getField_setField_eq. Qed.

Lemma getField_store_other l f q v p :
  q ≠ (l, f) → getField f (deref l (store q v p)) = getField f (deref l p).
Proof.
  destruct q as [l' f']. intros Hne.
  destruct (decide (l = l')) as [->|Hl].
  - rewrite deref_store_eq. apply getField_setField_ne. congruence.
  - by rewrite deref_store_ne.
Qed.

Lemma deref_set_registeredFlags l r p : deref l (set_registeredFlags r p) = deref l p.
Proof. reflexivity. Qed.

Lemma deref_set_formal l fm p : deref l (set_formal fm p) = deref l p.
Proof. reflexivity. Qed.

Lemma deref_set_environ l e p : deref l (set_environ e p) = deref l p.
Proof. reflexivity. Qed.

Lemma deref_emit l ev p : deref l (emit ev p) = deref l p.
Proof. reflexivity. Qed.

Lemma ports_store l q v p : ports (deref l (store q v p)) = ports (deref l p).
Proof.
  destruct q as [l' f]. destruct (decide (l = l')) as [->|Hl].
  - by rewrite deref_store_eq, ports_setField.
  - by rewrite deref_store_ne.
Qed.

End FieldFacts.

Ltac deref_norm :=
  repeat first
    [ rewrite deref_set_registeredFlags | rewrite deref_set_formal
    | rewrite deref_set_environ | rewrite deref_emit ].

Lemma validate_sub_errors c : sub_errors (validate c) = missing c.
Proof.
  destruct c as [g h s q m t l].
  unfold validate, missing, allFields. simpl.
  rewrite !filter_cons, filter_nil. simpl.
  repeat case_decide; reflexivity.
Qed.

Lemma validate_nil c : validate c = None ↔ ∀ f, getField f c ≠ "".
Proof.
  destruct c as [g h s q m t l]. unfold validate. simpl. split.
  - intros Hv f. repeat case_decide; try discriminate; by destruct f.
  - intros Hf.
    pose proof (Hf FCollectorGRPCURL). pose proof (Hf FCollectorHTTPURL).
    pose proof (Hf FServiceName). pose proof (Hf FPprofURL). simpl in *.
    repeat case_decide; congruence.
Qed.

Lemma validate_error c : validate c ≠ None ↔ ∃ f, getField f c = "".
Proof.
  rewrite validate_nil. split.
  - intros Hn. destruct (decide (getField FCollectorGRPCURL c = "")); [eauto|].
    destruct (decide (getField FCollectorHTTPURL c = "")); [eauto|].
    destruct (decide (getField FServiceName c = "")); [eauto|].
    destruct (decide (getField FPprofURL c = "")); [eauto|].
    exfalso. apply Hn. by intros [].
  - intros [f Hf] Hall. by apply (Hall f).
Qed.

(* ===================================================================== *)
(** ** The monad and the library calls *)
(* ===================================================================== *)

Lemma bind_Return {A B} (m : M A) (k : A → M B) p b p' :
  bind m k p = Return b p' → ∃ a p1, m p = Return a p1 ∧ k a p1 = Return b p'.
Proof. unfold bind. destruct (m p); [eauto | discriminate | discriminate]. Qed.

(** A relation between the state before and the final state that every step
    respects is respected by their sequence. *)
Lemma bind_final {A B} (R : relation Process) `{!Transitive R}
    (m : M A) (k : A → M B) p :
  R p (final (m p)) → (∀ a p1, R p1 (final (k a p1))) → R p (final (bind m k p)).
Proof.
  intros Hm Hk. unfold bind. destruct (m p) as [a p1| |]; [|done..].
  simpl in Hm. by etrans.
Qed.

Lemma loadConfig_cases cfg path p :
  loadConfig cfg path p =
    match files p !! resolvePath path with
    | Some (inl err) => Return (Some (Wrapf "loading .env file: " err)) p
    | _ => registerAndParse cfg (afterLoad (resolvePath path) p)
    end.
Proof.
  unfold loadConfig, Stat, godotenv_Load, afterLoad. fold (resolvePath path).
  destruct (files p !! resolvePath path) as [[err|m]|] eqn:E; rewrite ?E; reflexivity.
Qed.

Example scanArg_forms :
  [scanArg "-a=b"; scanArg "--a"; scanArg "-a=b=c"; scanArg "--";
   scanArg "-"; scanArg "a"; scanArg "-=x"; scanArg "---a"] =
  [TFlag "a" (Some "b"); TFlag "a" None; TFlag "a" (Some "b=c"); TTerminator;
   TStop; TStop; TBad; TBad].
Proof. reflexivity. Qed.

Example passedFlags_forms :
  passedFlags ["-servicename=ogen"; "--pprofurl"; "localhost:1777"; "rest"; "-x=1"] =
  [("servicename", "ogen"); ("pprofurl", "localhost:1777")].
Proof. reflexivity. Qed.

(* ===================================================================== *)
(** ** registerFlag *)
(* ===================================================================== *)

Lemma registered_insert name n r p :
  registered n (set_registeredFlags (<[name := true]> r) p) =
    if decide (name = n) then true else default false (r !! n).
Proof.
  unfold registered. simpl. rewrite lookup_insert. by case_decide.
Qed.

(** [registerFlag] on one of the four names, when the name is not defined
    behind the back of [registeredFlags]: it returns nil and leaves
    [afterRegister]. *)
Lemma registerFlag_afterRegister cfg f p :
  (registered (flagName f) p = false → formal p !! flagName f = None) →
  registerFlag (flagName f) (cfg, f) (flagUsage f) p =
    Return None (afterRegister (flagName f) (cfg, f) (flagUsage f) p).
Proof.
  intros Hfree.
  unfold registerFlag, afterRegister, bind, gets, modify, ret, flag_StringVar.
  destruct (registered (flagName f) p) eqn:Hreg; simpl.
  - rewrite Hreg. simpl. by case_bool_decide.
  - specialize (Hfree eq_refl).
    replace (String.prefix "-" (flagName f)) with false by (by destruct f).
    replace (bool_decide (is_Some (String.index 0 "=" (flagName f)))) with false
      by (by destruct f).
    simpl. rewrite Hfree. simpl.
    unfold registered at 1. simpl. rewrite lookup_insert_eq. simpl.
    by case_bool_decide.
Qed.

Section AfterRegister.
Context (cfg : loc) (f : field) (p : Process).
Let name := flagName f.
Let p' := afterRegister name (cfg, f) (flagUsage f) p.

Lemma afterRegister_environ : environ p' = environ p.
Proof.
  subst p' name. unfold afterRegister.
  destruct (registered _ p); case_bool_decide; reflexivity.
Qed.

Lemma afterRegister_files : files p' = files p.
Proof.
  subst p' name. unfold afterRegister.
  destruct (registered _ p); case_bool_decide; reflexivity.
Qed.

Lemma afterRegister_osArgs : osArgs p' = osArgs p.
Proof.
  subst p' name. unfold afterRegister.
  destruct (registered _ p); case_bool_decide; reflexivity.
Qed.

Lemma afterRegister_registered n :
  registered n p' = if decide (name = n) then true else registered n p.
Proof.
  subst p' name. unfold afterRegister.
  destruct (registered (flagName f) p) eqn:Hreg.
  - assert (registered n (if bool_decide (Getenv (flagName f) p = "") then p
                          else store (cfg, f) (Getenv (flagName f) p) p)
            = registered n p) as -> by (by case_bool_decide).
    case_decide; congruence.
  - case_bool_decide; unfold registered; simpl; rewrite lookup_insert; by case_decide.
Qed.

Lemma afterRegister_formal n :
  formal p' !! n =
    if registered name p then formal p !! n
    else if decide (name = n)
         then Some (mkFlag (cfg, f) (flagUsage f) (Getenv name p))
         else formal p !! n.
Proof.
  subst p' name. unfold afterRegister.
  destruct (registered (flagName f) p) eqn:Hreg.
  - by case_bool_decide.
  - case_bool_decide; simpl; rewrite lookup_insert; by case_decide.
Qed.

Lemma afterRegister_formal_registered :
  registered name p = true → formal p' = formal p.
Proof.
  subst p' name. unfold afterRegister. intros ->. by case_bool_decide.
Qed.

Lemma afterRegister_registeredFlags :
  registered name p = true → registeredFlags p' = registeredFlags p.
Proof.
  subst p' name. unfold afterRegister. intros ->. by case_bool_decide.
Qed.

Lemma afterRegister_trace :
  trace p' = (trace p ++ (if registered name p then [] else [EvStringVar name]))%list.
Proof.
  subst p' name. unfold afterRegister.
  destruct (registered (flagName f) p); case_bool_decide; simpl;
    by rewrite ?app_nil_r.
Qed.

Lemma afterRegister_deref_other l : l ≠ cfg → deref l p' = deref l p.
Proof.
  intros Hl. subst p' name. unfold afterRegister.
  destruct (registered (flagName f) p); case_bool_decide;
    deref_norm; rewrite ?deref_store_ne by done; deref_norm;
    rewrite ?deref_store_ne by done; reflexivity.
Qed.

Lemma afterRegister_getField_other l g :
  (l, g) ≠ (cfg, f) → getField g (deref l p') = getField g (deref l p).
Proof.
  intros Hne. subst p' name. unfold afterRegister.
  destruct (registered (flagName f) p); case_bool_decide;
    deref_norm; rewrite ?getField_store_other by done; deref_norm;
    rewrite ?getField_store_other by done; reflexivity.
Qed.

Lemma afterRegister_getField :
  getField f (deref cfg p') =
    if registered name p && bool_decide (Getenv name p = "")
    then getField f (deref cfg p) else Getenv name p.
Proof.
  subst p' name. unfold afterRegister.
  destruct (registered (flagName f) p); case_bool_decide; simpl andb; cbv iota;
    deref_norm; try reflexivity; apply (getField_store (cfg, f)).
Qed.

Lemma afterRegister_ports l : ports (deref l p') = ports (deref l p).
Proof.
  subst p' name. unfold afterRegister.
  destruct (registered (flagName f) p); case_bool_decide;
    deref_norm; rewrite ?ports_store; deref_norm; rewrite ?ports_store; reflexivity.
Qed.

End AfterRegister.

(* ===================================================================== *)
(** ** flag.Parse *)
(* ===================================================================== *)

#[local] Instance heapOnly_refl : Reflexive heapOnly.
Proof. by intros p. Qed.

#[local] Instance heapOnly_trans : Transitive heapOnly.
Proof.
  intros p q r (?&?&?&?&?&?&Hp) (?&?&?&?&?&?&Hq).
  repeat split; try congruence.
Qed.

Lemma store_heapOnly q v p : heapOnly p (store q v p).
Proof. repeat split. intros l. apply ports_store. Qed.

(** [parseOne] consumes one or two arguments: induction to match. *)
Lemma list_ind_pairs {A} (P : list A → Prop) :
  P [] →
  (∀ a l, P l → (∀ b l', l = b :: l' → P l') → P (a :: l)) →
  ∀ l, P l.
Proof.
  intros Hnil Hcons.
  assert (H : ∀ l, P l ∧ ∀ b l', l = b :: l' → P l').
  { induction l as [|a l [IH1 IH2]].
    - split; [done | discriminate].
    - split; [by apply Hcons | by intros b l' [= <- <-]]. }
  intros l. apply H.
Qed.

Lemma parseArgs_heapOnly args : ∀ p, heapOnly p (final (parseArgs args p)).
Proof.
  induction args as [|a rest IH1 IH2] using list_ind_pairs; intros p; simpl; [done|].
  destruct (scanArg a) as [| | |name [v|]]; simpl; try done.
  - destruct (formal p !! name) as [fl|]; [|by case_bool_decide].
    etrans; [apply store_heapOnly | apply IH1].
  - destruct (formal p !! name) as [fl|]; [|by case_bool_decide].
    destruct rest as [|v rest']; [done|].
    etrans; [apply store_heapOnly | by eapply IH2].
Qed.

(** When [flag.Parse] returns, it has set exactly the passed flags, in
    order, and each of them is a defined flag. *)
Lemma parseArgs_Return args : ∀ p u p',
  parseArgs args p = Return u p' →
  p' = foldl setFlag p (passedFlags args) ∧
  Forall (fun tok => is_Some (formal p !! tok.1)) (passedFlags args).
Proof.
  induction args as [|a rest IH1 IH2] using list_ind_pairs; intros p u p'; simpl.
  - by intros [= _ <-].
  - destruct (scanArg a) as [| | |name [v|]]; simpl; try by intros [= _ <-].
    + unfold setFlag at 2. simpl.
      destruct (formal p !! name) as [fl|] eqn:E; [|by case_bool_decide].
      intros H. destruct (IH1 _ _ _ H) as [-> HF]. split; [done|].
      constructor; [simpl; by rewrite E|done].
    + destruct (formal p !! name) as [fl|] eqn:E; [|by case_bool_decide].
      destruct rest as [|v rest']; [discriminate|]. simpl.
      unfold setFlag at 2. simpl. rewrite E.
      intros H. destruct (IH2 _ _ eq_refl _ _ _ H) as [-> HF]. split; [done|].
      constructor; [simpl; by rewrite E|done].
Qed.

(** Whether and how [flag.Parse] stops depends on the defined flags and the
    arguments only. *)
Lemma parseArgs_ending args : ∀ p q,
  formal p = formal q → ending (parseArgs args p) = ending (parseArgs args q).
Proof.
  induction args as [|a rest IH1 IH2] using list_ind_pairs; intros p q Hpq; simpl; [done|].
  destruct (scanArg a) as [| | |name [v|]]; simpl; try done; rewrite <- Hpq.
  - destruct (formal p !! name) as [fl|]; [by apply IH1 | by case_bool_decide].
  - destruct (formal p !! name) as [fl|]; [|by case_bool_decide].
    destruct rest as [|v rest']; [done|]. by eapply IH2.
Qed.

(** Under [boundTo], the passed flags decide the fields of [cfg] by name. *)
Lemma foldl_setFlag_getField cfg f toks : ∀ p,
  boundTo cfg p →
  Forall (fun tok => is_Some (formal p !! tok.1)) toks →
  getField f (deref cfg (foldl setFlag p toks)) =
    default (getField f (deref cfg p)) (lastPassed (flagName f) toks).
Proof.
  induction toks as [|[n v] toks IH]; intros p Hb Hdef; simpl; [done|].
  apply Forall_cons in Hdef as [[fl E] Hdef]. simpl in E.
  assert (Hform : formal (setFlag p (n, v)) = formal p).
  { unfold setFlag. by destruct (formal p !! (n, v).1). }
  assert (Hreg : registeredFlags (setFlag p (n, v)) = registeredFlags p).
  { unfold setFlag. by destruct (formal p !! (n, v).1). }
  rewrite IH; cycle 1.
  { intros name fl'. unfold registered. rewrite Hform, Hreg. apply Hb. }
  { by rewrite Hform. }
  destruct (lastPassed (flagName f) toks) as [v'|]; simpl; [done|].
  unfold setFlag. simpl. rewrite E.
  destruct (Hb n fl E) as (_ & g & -> & Htgt). rewrite Htgt.
  case_decide as Hn.
  - apply flagName_inj in Hn as ->. simpl. apply (getField_store (cfg, f)).
  - simpl. apply getField_store_other. congruence.
Qed.

(* ===================================================================== *)
(** ** The registration sequence and loadConfig *)
(* ===================================================================== *)

Lemma boundTo_free cfg p name :
  boundTo cfg p → registered name p = false → formal p !! name = None.
Proof.
  intros Hb Hreg. destruct (formal p !! name) as [fl|] eqn:E; [|done].
  destruct (Hb name fl E) as [Hr _]. congruence.
Qed.

Lemma afterRegister_boundTo cfg f p :
  boundTo cfg p → boundTo cfg (afterRegister (flagName f) (cfg, f) (flagUsage f) p).
Proof.
  intros Hb name fl. rewrite afterRegister_formal, afterRegister_registered.
  destruct (registered (flagName f) p) eqn:Hreg.
  - intros H. destruct (Hb name fl H) as [Hr Hf]. split; [by case_decide | done].
  - case_decide as Hn.
    + intros [= <-]. split; [done|]. by exists f.
    + apply Hb.
Qed.

Section AfterRegisterAll.
Context (cfg : loc).

Lemma afterRegisterAll_boundTo fs : ∀ p,
  boundTo cfg p → boundTo cfg (afterRegisterAll cfg fs p).
Proof.
  induction fs as [|g fs IH]; intros p Hb; simpl; [done|].
  apply IH. by apply afterRegister_boundTo.
Qed.

Lemma afterRegisterAll_environ fs : ∀ p,
  environ (afterRegisterAll cfg fs p) = environ p ∧
  files (afterRegisterAll cfg fs p) = files p ∧
  osArgs (afterRegisterAll cfg fs p) = osArgs p.
Proof.
  induction fs as [|g fs IH]; intros p; simpl; [done|].
  destruct (IH (afterRegister (flagName g) (cfg, g) (flagUsage g) p)) as (-> & -> & ->).
  by rewrite afterRegister_environ, afterRegister_files, afterRegister_osArgs.
Qed.

Lemma afterRegisterAll_ports fs l : ∀ p,
  ports (deref l (afterRegisterAll cfg fs p)) = ports (deref l p).
Proof.
  induction fs as [|g fs IH]; intros p; simpl; [done|].
  by rewrite IH, afterRegister_ports.
Qed.

Lemma afterRegisterAll_registered fs n : ∀ p,
  registered n (afterRegisterAll cfg fs p) =
    if bool_decide (n ∈ flagName <$> fs) then true else registered n p.
Proof.
  induction fs as [|g fs IH]; intros p; simpl; [done|].
  rewrite IH, afterRegister_registered.
  destruct (decide (flagName g = n)) as [<-|Hn].
  - rewrite (bool_decide_eq_true_2 (flagName g ∈ flagName g :: _)) by left.
    by destruct (bool_decide _).
  - apply (f_equal (fun b : bool => if b then true else registered n p)).
    apply bool_decide_ext. rewrite elem_of_cons.
    split; [by right | by intros [?|?]].
Qed.

Lemma afterRegisterAll_getField_notin fs l f : ∀ p,
  f ∉ fs → getField f (deref l (afterRegisterAll cfg fs p)) = getField f (deref l p).
Proof.
  induction fs as [|g fs IH]; intros p Hf; simpl; [done|].
  apply not_elem_of_cons in Hf as [Hfg Hf].
  rewrite IH by done. apply afterRegister_getField_other. congruence.
Qed.

Lemma afterRegisterAll_deref_other fs l : ∀ p,
  l ≠ cfg → deref l (afterRegisterAll cfg fs p) = deref l p.
Proof.
  induction fs as [|g fs IH]; intros p Hl; simpl; [done|].
  rewrite IH by done. by apply afterRegister_deref_other.
Qed.

(** Each field takes its resolved default, whatever the other three calls do. *)
Lemma afterRegisterAll_getField fs f : ∀ p,
  NoDup fs → f ∈ fs →
  getField f (deref cfg (afterRegisterAll cfg fs p)) = resolved cfg f p.
Proof.
  induction fs as [|g fs IH]; intros p Hnd Hin; simpl; [by apply elem_of_nil in Hin|].
  apply NoDup_cons in Hnd as [Hg Hnd].
  destruct (decide (f = g)) as [->|Hfg].
  - rewrite afterRegisterAll_getField_notin by done. apply afterRegister_getField.
  - apply elem_of_cons in Hin as [?|Hin]; [done|].
    rewrite IH by done. unfold resolved, Getenv.
    rewrite afterRegister_environ, afterRegister_registered.
    rewrite decide_False by (intros H; by apply flagName_inj in H).
    rewrite afterRegister_getField_other by congruence. done.
Qed.

(** With the four flags registered already, nothing of the flag package
    changes and no call of [flag.StringVar] is made. *)
Lemma afterRegisterAll_registered_same fs : ∀ p,
  (∀ f, f ∈ fs → registered (flagName f) p = true) →
  formal (afterRegisterAll cfg fs p) = formal p ∧
  registeredFlags (afterRegisterAll cfg fs p) = registeredFlags p ∧
  trace (afterRegisterAll cfg fs p) = trace p.
Proof.
  induction fs as [|g fs IH]; intros p Hreg; simpl; [done|].
  assert (Hg : registered (flagName g) p = true) by (apply Hreg; left).
  destruct (IH (afterRegister (flagName g) (cfg, g) (flagUsage g) p)) as (-> & -> & ->).
  { intros f Hf. rewrite afterRegister_registered.
    case_decide; [done|]. apply Hreg. by right. }
  rewrite afterRegister_formal_registered, afterRegister_registeredFlags,
    afterRegister_trace, Hg by done.
  by rewrite app_nil_r.
Qed.

Lemma afterRegisterAll_parseCount fs : ∀ p,
  parseCount (afterRegisterAll cfg fs p) = parseCount p.
Proof.
  induction fs as [|g fs IH]; intros p; simpl; [done|].
  rewrite IH. unfold parseCount. rewrite afterRegister_trace, filter_app, length_app.
  destruct (registered (flagName g) p); [simpl; lia|].
  rewrite filter_cons_False by done. simpl. lia.
Qed.

End AfterRegisterAll.

Lemma registerAndParse_unfold cfg :
  registerAndParse cfg =
    (registerFlag (flagName FCollectorGRPCURL) (cfg, FCollectorGRPCURL) (flagUsage FCollectorGRPCURL) ;;
     registerFlag (flagName FCollectorHTTPURL) (cfg, FCollectorHTTPURL) (flagUsage FCollectorHTTPURL) ;;
     registerFlag (flagName FServiceName) (cfg, FServiceName) (flagUsage FServiceName) ;;
     registerFlag (flagName FPprofURL) (cfg, FPprofURL) (flagUsage FPprofURL) ;;
     flag_Parse ;;
     gets (fun p => validate (deref cfg p))).
Proof. reflexivity. Qed.

(** Under [boundTo] no [registerFlag] call panics: registration leaves
    [afterRegisterAll], and [flag.Parse] and [validate] run on it. *)
Lemma registerAndParse_bound cfg p :
  boundTo cfg p →
  registerAndParse cfg p =
    (flag_Parse ;; gets (fun p => validate (deref cfg p)))
      (afterRegisterAll cfg allFields p).
Proof.
  intros Hb. rewrite registerAndParse_unfold. unfold bind at 1.
  rewrite registerFlag_afterRegister by (by apply (boundTo_free cfg)).
  apply (afterRegister_boundTo cfg FCollectorGRPCURL) in Hb.
  unfold bind at 1.
  rewrite registerFlag_afterRegister by (by apply (boundTo_free cfg)).
  apply (afterRegister_boundTo cfg FCollectorHTTPURL) in Hb.
  unfold bind at 1.
  rewrite registerFlag_afterRegister by (by apply (boundTo_free cfg)).
  apply (afterRegister_boundTo cfg FServiceName) in Hb.
  unfold bind at 1.
  rewrite registerFlag_afterRegister by (by apply (boundTo_free cfg)).
  reflexivity.
Qed.

Lemma allFields_NoDup : NoDup allFields.
Proof. compute_done. Qed.

Lemma elem_of_allFields f : f ∈ allFields.
Proof. destruct f; compute_done. Qed.

(** Whatever the state, an error [registerAndParse] returns is the verdict
    of [validate] on the Config as the call leaves it. *)
Lemma registerAndParse_validate cfg p e p' :
  registerAndParse cfg p = Return e p' → e = validate (deref cfg p').
Proof.
  unfold registerAndParse. intros H.
  repeat (apply bind_Return in H as (? & ? & _ & H)).
  unfold gets in H. by injection H as <- <-.
Qed.

(** Under [boundTo], a returning [registerAndParse] leaves every field of
    [cfg] at its merged value. *)
Lemma registerAndParse_Return cfg p e p' :
  boundTo cfg p →
  registerAndParse cfg p = Return e p' →
  e = validate (deref cfg p') ∧
  (∀ f, getField f (deref cfg p') = merged cfg f p) ∧
  heapOnly (emit EvParse (afterRegisterAll cfg allFields p)) p'.
Proof.
  intros Hb H. split; [by eapply registerAndParse_validate|].
  rewrite registerAndParse_bound in H by done.
  unfold bind, flag_Parse, gets in H.
  destruct (parseArgs _ _) as [u q| |] eqn:E; [|discriminate..].
  injection H as _ <-.
  pose proof (parseArgs_heapOnly (osArgs (afterRegisterAll cfg allFields p))
    (emit EvParse (afterRegisterAll cfg allFields p))) as Hho.
  rewrite E in Hho. simpl in Hho. split; [|done].
  destruct (afterRegisterAll_environ cfg allFields p) as (_ & _ & Hargs).
  rewrite Hargs in E.
  apply parseArgs_Return in E as [-> Hdef]. intros f.
  pose proof (afterRegisterAll_boundTo cfg allFields p Hb) as Hb4.
  rewrite (foldl_setFlag_getField cfg f) by done.
  unfold merged. f_equal. deref_norm.
  apply afterRegisterAll_getField; [apply allFields_NoDup | apply elem_of_allFields].
Qed.

(** When the first call returned, parsing the same command line against the
    same flags returns again. *)
Lemma registerAndParse_again cfg p q :
  boundTo cfg p → boundTo cfg q →
  formal (afterRegisterAll cfg allFields q) = formal (afterRegisterAll cfg allFields p) →
  osArgs q = osArgs p →
  ending (registerAndParse cfg p) = None →
  ∃ e q', registerAndParse cfg q = Return e q'.
Proof.
  intros Hp Hq Hform Hargs.
  rewrite !registerAndParse_bound by done.
  unfold bind, flag_Parse, gets.
  pose proof (parseArgs_ending (osArgs (afterRegisterAll cfg allFields q))
    (emit EvParse (afterRegisterAll cfg allFields q))
    (emit EvParse (afterRegisterAll cfg allFields p)) Hform) as He.
  destruct (afterRegisterAll_environ cfg allFields p) as (_ & _ & Hap).
  destruct (afterRegisterAll_environ cfg allFields q) as (_ & _ & Haq).
  rewrite Haq, Hargs, <- Hap in He.
  destruct (parseArgs _ (emit EvParse (afterRegisterAll cfg allFields p))); try discriminate.
  intros _. rewrite Haq, Hargs, <- Hap.
  destruct (parseArgs _ (emit EvParse (afterRegisterAll cfg allFields q))); try discriminate.
  eauto.
Qed.

(* ===================================================================== *)
(** ** The dotenv step *)
(* ===================================================================== *)

Lemma afterLoad_boundTo cfg path p : boundTo cfg p → boundTo cfg (afterLoad path p).
Proof. unfold afterLoad. by destruct (files p !! path) as [[?|?]|]. Qed.

Lemma afterLoad_deref l path p : deref l (afterLoad path p) = deref l p.
Proof. unfold afterLoad. by destruct (files p !! path) as [[?|?]|]. Qed.

Lemma afterLoad_flags path p :
  formal (afterLoad path p) = formal p ∧
  registeredFlags (afterLoad path p) = registeredFlags p ∧
  osArgs (afterLoad path p) = osArgs p ∧
  files (afterLoad path p) = files p.
Proof. unfold afterLoad. by destruct (files p !! path) as [[?|?]|]. Qed.

(** The environment wins over the file: a variable that is set keeps its
    value, whatever the file says. *)
Lemma afterLoad_environ_Some path p key v :
  environ p !! key = Some v → environ (afterLoad path p) !! key = Some v.
Proof.
  intros H. unfold afterLoad. destruct (files p !! path) as [[?|m]|]; try done.
  simpl. by apply lookup_union_Some_l.
Qed.

(** A variable that is not set takes the value of the file. *)
Lemma afterLoad_environ_None path p key m :
  files p !! path = Some (inr m) → environ p !! key = None →
  environ (afterLoad path p) !! key = m !! key.
Proof.
  intros Hf H. unfold afterLoad. rewrite Hf. simpl.
  by rewrite lookup_union_r.
Qed.

Lemma afterLoad_parseCount path p : parseCount (afterLoad path p) = parseCount p.
Proof.
  unfold afterLoad. destruct (files p !! path) as [[?|m]|]; try done.
  unfold parseCount. simpl. rewrite filter_app, length_app.
  rewrite filter_cons_False by done. simpl. lia.
Qed.

(* ===================================================================== *)
(** ** Frame properties of loadConfig *)
(* ===================================================================== *)

#[local] Instance envPorts_refl : Reflexive envPorts.
Proof. by intros p. Qed.

#[local] Instance envPorts_trans : Transitive envPorts.
Proof.
  intros p q r [He Hp] [He' Hp']. split; [congruence|].
  intros l. by rewrite Hp', Hp.
Qed.

Lemma heapOnly_envPorts p p' : heapOnly p p' → envPorts p p'.
Proof. intros (?&?&?&?&?&?&?). by split. Qed.

Lemma store_envPorts q v p : envPorts p (store q v p).
Proof. apply heapOnly_envPorts, store_heapOnly. Qed.

Lemma registerFlag_envPorts name q usage p :
  envPorts p (final (registerFlag name q usage p)).
Proof.
  unfold registerFlag, bind, gets, modify, ret, flag_StringVar.
  destruct (registered name p) eqn:Hreg; simpl.
  - rewrite Hreg. simpl. case_bool_decide; simpl; [done | apply store_envPorts].
  - destruct (String.prefix "-" name); [apply store_envPorts|].
    case_bool_decide; [apply store_envPorts|]. simpl.
    destruct (formal p !! name); [apply store_envPorts|]. simpl.
    unfold registered at 1. simpl. rewrite lookup_insert_eq. simpl.
    case_bool_decide; simpl.
    + apply (store_envPorts q (Getenv name p) p).
    + split; [done|]. intros l. deref_norm. rewrite ports_store. deref_norm.
      apply ports_store.
Qed.

Lemma flag_Parse_envPorts p : envPorts p (final (flag_Parse p)).
Proof.
  unfold flag_Parse.
  apply (heapOnly_envPorts (emit EvParse p)), parseArgs_heapOnly.
Qed.

Lemma registerAndParse_envPorts cfg p : envPorts p (final (registerAndParse cfg p)).
Proof.
  unfold registerAndParse.
  repeat (apply (bind_final envPorts);
          [first [apply registerFlag_envPorts | apply flag_Parse_envPorts] | intros _ ?]).
  done.
Qed.

(* ===================================================================== *)
(** ** Properties of the configuration resolver *)
(* ===================================================================== *)

Lemma freshProcess_boundTo cfg env fs args h : boundTo cfg (freshProcess env fs args h).
Proof. intros name fl H. simpl in H. by rewrite lookup_empty in H. Qed.

(** With no variable, no file and no flag, the four errors are joined. *)
Example loadConfig_nothing_set :
  ∃ e p', loadConfig 0%nat "" (freshProcess ∅ ∅ [] ∅) = Return e p' ∧
    sub_errors e = [Errorf "collector grpc endpoint required";
                    Errorf "collector http endpoint required";
                    Errorf "service name required";
                    Errorf "pprof endpoint required"].
Proof. eexists _, _. split; vm_compute; reflexivity. Qed.

(** The scenario of [TestLoadConfig]: an error, then two successes that
    leave the expected values in the Config. *)
Example testLoadConfig_passes :
  ∃ err1 p', testLoadConfig testProcess = Return (Some err1, None, None) p' ∧
    deref 0%nat p' = demoConfig.
Proof. eexists _, _. split; vm_compute; reflexivity. Qed.

(** A flag that is not defined ends the process with status 2. *)
Example loadConfig_undefined_flag :
  ending (loadConfig 0%nat "" (freshProcess demoEnv ∅ ["-verbose"] ∅)) = Some (inl 2).
Proof. vm_compute. reflexivity. Qed.

(** A returning call on a loadable or absent dotenv file, in a process bound
    to [cfg]: the fields are the merged values and the environment is the
    one the dotenv step left. *)
Lemma loadConfig_merged cfg path p e p' :
  (∀ err, files p !! resolvePath path ≠ Some (inl err)) →
  loadConfig cfg path p = Return e p' →
  boundTo cfg p →
  (∀ f, getField f (deref cfg p') = merged cfg f (afterLoad (resolvePath path) p)) ∧
  environ p' = environ (afterLoad (resolvePath path) p).
Proof.
  intros Hok H Hb. rewrite loadConfig_cases in H.
  assert (Hrp : registerAndParse cfg (afterLoad (resolvePath path) p) = Return e p').
  { destruct (files p !! resolvePath path) as [[err|m]|] eqn:E; [|done..].
    by destruct (Hok err). }
  split.
  - eapply registerAndParse_Return; [|done]. by apply afterLoad_boundTo.
  - pose proof (registerAndParse_envPorts cfg (afterLoad (resolvePath path) p)) as [He _].
    by rewrite Hrp in He.
Qed.

(** C1 (as amended). Whenever the dotenv file is absent or loads, an error
    that [loadConfig] returns is the verdict of [validate] on the merged
    Config: it is non-nil if and only if at least one of the four required
    fields is empty after merging, and its sub-errors are exactly one per
    empty field, all of them together and in the order of the struct. In a
    process whose flags are bound to this Config the merged fields are the
    flag value when passed and the resolved environment value otherwise. *)
Theorem loadConfig_reports_every_empty_field cfg path p e p' :
  (∀ err, files p !! resolvePath path ≠ Some (inl err)) →
  loadConfig cfg path p = Return e p' →
  (e ≠ None ↔ ∃ f, getField f (deref cfg p') = "") ∧
  sub_errors e = missing (deref cfg p') ∧
  (boundTo cfg p →
   ∀ f, getField f (deref cfg p') = merged cfg f (afterLoad (resolvePath path) p)).
Proof.
  intros Hok H. rewrite loadConfig_cases in H.
  assert (Hrp : registerAndParse cfg (afterLoad (resolvePath path) p) = Return e p').
  { destruct (files p !! resolvePath path) as [[err|m]|] eqn:E; [|done..].
    by destruct (Hok err). }
  pose proof (registerAndParse_validate _ _ _ _ Hrp) as ->.
  split; [apply validate_error|]. split; [apply validate_sub_errors|].
  intros Hb. eapply registerAndParse_Return; [|done]. by apply afterLoad_boundTo.
Qed.

Lemma loadConfig_reports_every_empty_field_witness :
  ∃ e p', loadConfig 0%nat "" (freshProcess ∅ ∅ ["-servicename=ogen"] ∅) = Return e p' ∧
    sub_errors e = [Errorf "collector grpc endpoint required";
                    Errorf "collector http endpoint required";
                    Errorf "pprof endpoint required"].
Proof.
  destruct (loadConfig 0%nat "" (freshProcess ∅ ∅ ["-servicename=ogen"] ∅))
    as [e p'| |] eqn:E; [|vm_compute in E; discriminate..].
  exists e, p'. split; [reflexivity|].
  destruct (loadConfig_reports_every_empty_field 0%nat ""
              (freshProcess ∅ ∅ ["-servicename=ogen"] ∅) e p') as (_ & -> & _).
  - intros err. vm_compute. discriminate.
  - exact E.
  - vm_compute in E. injection E as <- <-. vm_compute. reflexivity.
Defined.

(** C1 as stated fails on a dotenv file that does not parse: [loadConfig]
    returns an error although no required field is empty, and the error is
    the wrapped load error, not a join of per-field errors. *)
Lemma loadConfig_malformed_dotenv_not_field_errors :
  ∃ e p', loadConfig 0%nat "" malformedProcess = Return e p' ∧
    e ≠ None ∧ (∀ f, getField f (deref 0%nat p') ≠ "") ∧
    sub_errors e ≠ missing (deref 0%nat p').
Proof.
  eexists _, _. split; [vm_compute; reflexivity|].
  split; [discriminate|]. split; [by intros []|]. vm_compute. discriminate.
Qed.

(** C6. If the dotenv file at the resolved path exists but does not load,
    [loadConfig] returns the load error wrapped with the message
    "loading .env file: " and leaves the process as it found it: no flag
    is registered, the command line is not parsed, the flag tables and every
    Config field are untouched. *)
Theorem loadConfig_malformed_dotenv_aborts cfg path p err :
  files p !! resolvePath path = Some (inl err) →
  loadConfig cfg path p = Return (Some (Wrapf "loading .env file: " err)) p.
Proof. intros H. by rewrite loadConfig_cases, H. Qed.

Lemma loadConfig_malformed_dotenv_aborts_witness :
  loadConfig 0%nat "" malformedProcess =
    Return (Some (Wrapf "loading .env file: "
                    (Errorf "unexpected character in variable name")))
           malformedProcess.
Proof.
  apply (loadConfig_malformed_dotenv_aborts 0%nat "" malformedProcess).
  vm_compute. reflexivity.
Defined.

(** C10. [loadConfig] changes the environment only when a file exists at
    the resolved path (the given one, or ".env" for the empty path): with no
    file there the environment is the same when the call ends, however it
    ends; with a file it can only gain variables. In every case the ports
    [MetricsPort], [TracerPort] and [LoggerPort] of every Config object are
    what they were. *)
Theorem loadConfig_frame cfg path p :
  match files p !! resolvePath path with
  | None => environ (final (loadConfig cfg path p)) = environ p
  | Some _ => environ p ⊆ environ (final (loadConfig cfg path p))
  end ∧
  ∀ l, ports (deref l (final (loadConfig cfg path p))) = ports (deref l p).
Proof.
  rewrite loadConfig_cases.
  destruct (registerAndParse_envPorts cfg (afterLoad (resolvePath path) p)) as [He Hp].
  unfold afterLoad in *.
  destruct (files p !! resolvePath path) as [[err|m]|] eqn:E; simpl in *.
  - done.
  - split; [|done]. rewrite He. apply map_union_subseteq_l.
  - done.
Qed.

(** C2 as stated fails: a flag passed on the command line does not give the
    field its final value in every call. The flags keep the pointers of the
    Config of the first call; a call on a second Config leaves the
    environment value in its field although the flag is passed. *)
Lemma loadConfig_flag_lost_on_second_config :
  loadConfig 0%nat "" (freshProcess demoEnv ∅ ["-servicename=from-flag"] ∅)
    = Return None otherConfigLoaded ∧
  lastPassed "servicename" (passedFlags (osArgs otherConfigLoaded)) = Some "from-flag" ∧
  ∃ e p', loadConfig 1%nat "" otherConfigLoaded = Return e p' ∧
    getField FServiceName (deref 1%nat p') = "ogen" ∧
    getField FServiceName (deref 1%nat p') ≠ "from-flag".
Proof.
  split; [vm_compute; reflexivity|]. split; [vm_compute; reflexivity|].
  eexists _, _. split; [vm_compute; reflexivity|].
  split; [vm_compute; reflexivity | vm_compute; discriminate].
Qed.

(** C2 (as amended). For each of the four keys, in a process whose flags are
    not registered yet or are bound to this Config (the first call of a
    process, or a later call on the same Config) and whose dotenv file loads:
    when the file and the environment both hold a value for the key, the
    environment value is the one resolved (the variable keeps it, and it
    becomes the field unless a flag is passed); and a flag passed on the
    command line gives the field its final value, whatever the environment
    and the file hold. *)
Theorem loadConfig_precedence cfg path p e p' f :
  boundTo cfg p →
  (∀ err, files p !! resolvePath path ≠ Some (inl err)) →
  loadConfig cfg path p = Return e p' →
  (∀ m vf ve,
     files p !! resolvePath path = Some (inr m) →
     m !! flagName f = Some vf →
     environ p !! flagName f = Some ve →
     Getenv (flagName f) p' = ve ∧
     (lastPassed (flagName f) (passedFlags (osArgs p)) = None →
      ve ≠ "" ∨ registered (flagName f) p = false →
      getField f (deref cfg p') = ve)) ∧
  (∀ v, lastPassed (flagName f) (passedFlags (osArgs p)) = Some v →
        getField f (deref cfg p') = v).
Proof.
  intros Hb Hok H.
  destruct (loadConfig_merged cfg path p e p' Hok H Hb) as [Hm Henv].
  destruct (afterLoad_flags (resolvePath path) p) as (_ & Hreg & Hargs & _).
  split.
  - intros m vf ve Hfile Hvf Hve.
    assert (Hget : Getenv (flagName f) (afterLoad (resolvePath path) p) = ve).
    { unfold Getenv. by rewrite (afterLoad_environ_Some _ _ _ ve). }
    split; [unfold Getenv in *; by rewrite Henv|].
    intros Hno Hcase. rewrite Hm. unfold merged, resolved.
    rewrite Hargs, Hno, Hget. simpl. unfold registered. rewrite Hreg.
    destruct Hcase as [Hne|Hnr].
    + rewrite (bool_decide_eq_false_2 _ Hne). by rewrite andb_false_r.
    + unfold registered in Hnr. by rewrite Hnr.
  - intros v Hv. rewrite Hm. unfold merged. by rewrite Hargs, Hv.
Qed.

Lemma loadConfig_precedence_witness :
  ∃ e p', loadConfig 0%nat "" threeSources = Return e p' ∧
    Getenv "servicename" p' = "from-env" ∧
    getField FServiceName (deref 0%nat p') = "from-flag" ∧
    getField FPprofURL (deref 0%nat p') = "env:1777".
Proof.
  destruct (loadConfig 0%nat "" threeSources) as [e p'| |] eqn:E;
    [|vm_compute in E; discriminate..].
  exists e, p'. split; [reflexivity|].
  assert (Hok : ∀ err, files threeSources !! resolvePath "" ≠ Some (inl err))
    by (intros err; vm_compute; discriminate).
  destruct (loadConfig_precedence 0%nat "" threeSources e p' FServiceName
              (freshProcess_boundTo _ _ _ _ _) Hok E) as [Henv Hflag].
  destruct (loadConfig_precedence 0%nat "" threeSources e p' FPprofURL
              (freshProcess_boundTo _ _ _ _ _) Hok E) as [Henv' _].
  split; [|split].
  - eapply (Henv _ "from-file" "from-env"); vm_compute; reflexivity.
  - apply Hflag. vm_compute. reflexivity.
  - eapply (Henv' _ "file:1777" "env:1777"); try (vm_compute; reflexivity).
    left. discriminate.
Defined.

(* ===================================================================== *)
(** ** Calling loadConfig again *)
(* ===================================================================== *)

Lemma boundTo_ext cfg p q :
  formal q = formal p → registeredFlags q = registeredFlags p →
  boundTo cfg p → boundTo cfg q.
Proof. intros Hf Hr Hb name fl. unfold registered. rewrite Hf, Hr. apply Hb. Qed.

Lemma parseCount_emit_Parse p : parseCount (emit EvParse p) = S (parseCount p).
Proof.
  unfold parseCount. simpl. rewrite filter_app, length_app.
  rewrite filter_cons_True by done. simpl. lia.
Qed.

Lemma stringVarCount_emit name ev p :
  ev ≠ EvStringVar name → stringVarCount name (emit ev p) = stringVarCount name p.
Proof.
  intros Hev. unfold stringVarCount. simpl. rewrite filter_app, length_app.
  rewrite filter_cons_False by done. simpl. lia.
Qed.

Lemma afterLoad_stringVarCount name path p :
  stringVarCount name (afterLoad path p) = stringVarCount name p.
Proof.
  unfold afterLoad. destruct (files p !! path) as [[?|m]|]; try done.
  by rewrite stringVarCount_emit.
Qed.

Lemma heapOnly_emit ev q p' :
  heapOnly (emit ev q) p' →
  files p' = files q ∧ osArgs p' = osArgs q ∧
  registeredFlags p' = registeredFlags q ∧ formal p' = formal q ∧
  trace p' = (trace q ++ [ev])%list.
Proof. by intros (?&?&?&?&?&?&?). Qed.

(** What a returning, validating call leaves behind. *)
Lemma registerAndParse_post cfg p e p' :
  boundTo cfg p →
  registerAndParse cfg p = Return e p' →
  boundTo cfg p' ∧
  (∀ f, registered (flagName f) p' = true) ∧
  formal p' = formal (afterRegisterAll cfg allFields p) ∧
  registeredFlags p' = registeredFlags (afterRegisterAll cfg allFields p) ∧
  osArgs p' = osArgs p ∧ files p' = files p ∧
  trace p' = (trace (afterRegisterAll cfg allFields p) ++ [EvParse])%list.
Proof.
  intros Hb H.
  destruct (registerAndParse_Return cfg p e p' Hb H) as (_ & _ & Hho).
  apply heapOnly_emit in Hho as (Hfiles & Hargs & Hreg & Hform & Htr).
  destruct (afterRegisterAll_environ cfg allFields p) as (_ & Hf4 & Ha4).
  split; [|split; [|repeat split; congruence]].
  - eapply boundTo_ext; [done..|]. by apply afterRegisterAll_boundTo.
  - intros f. unfold registered. rewrite Hreg.
    change (registered (flagName f) (afterRegisterAll cfg allFields p) = true).
    rewrite afterRegisterAll_registered.
    rewrite bool_decide_eq_true_2; [done|].
    apply list_elem_of_fmap. exists f. split; [done | apply elem_of_allFields].
Qed.

(** C3 as stated fails: every call of [loadConfig] that gets past the dotenv
    step calls [flag.Parse]; after two calls the command line has been
    parsed twice, not once. *)
Lemma loadConfig_twice_parses_twice :
  parseCount (final (loadConfigTwice 0%nat "" "" envOnly)) = 2%nat ∧
  parseCount (final (loadConfigTwice 0%nat "" "" envOnly)) ≠ 1%nat.
Proof. split; [vm_compute; reflexivity | vm_compute; discriminate]. Qed.

(** C3 (as amended). After a call of [loadConfig] that returned no error,
    a second call on the same Config whose dotenv file is absent or loads
    returns no error either; it registers no flag again (the flag tables are
    unchanged and no [flag.StringVar] call is made), and it parses the
    command line once more: [flag.Parse] runs once in each call. *)
Theorem loadConfig_second_call cfg path1 path2 p p1 :
  boundTo cfg p →
  loadConfig cfg path1 p = Return None p1 →
  (∀ err, files p1 !! resolvePath path2 ≠ Some (inl err)) →
  ∃ p2, loadConfig cfg path2 p1 = Return None p2 ∧
    formal p2 = formal p1 ∧
    registeredFlags p2 = registeredFlags p1 ∧
    (∀ name, stringVarCount name p2 = stringVarCount name p1) ∧
    parseCount p1 = S (parseCount p) ∧
    parseCount p2 = S (parseCount p1).
Proof.
  intros Hb H1 Hok.
  (* the first call *)
  rewrite loadConfig_cases in H1.
  assert (Hrp : registerAndParse cfg (afterLoad (resolvePath path1) p) = Return None p1).
  { by destruct (files p !! resolvePath path1) as [[err|m]|]. }
  clear H1. set (pa := afterLoad (resolvePath path1) p) in *.
  assert (Hba : boundTo cfg pa) by (by apply afterLoad_boundTo).
  destruct (registerAndParse_Return cfg pa None p1 Hba Hrp) as (Hv1 & Hm1 & _).
  destruct (registerAndParse_post cfg pa None p1 Hba Hrp)
    as (Hb1 & Hreg1 & Hform1 & _ & Hargs1 & _ & Htr1).
  symmetry in Hv1. rewrite validate_nil in Hv1.
  (* the second call *)
  rewrite loadConfig_cases.
  set (qa := afterLoad (resolvePath path2) p1).
  assert (Hcase : match files p1 !! resolvePath path2 with
                  | Some (inl err) => Return (Some (Wrapf "loading .env file: " err)) p1
                  | _ => registerAndParse cfg qa
                  end = registerAndParse cfg qa).
  { destruct (files p1 !! resolvePath path2) as [[err|m]|] eqn:E; [|done..].
    by destruct (Hok err). }
  rewrite Hcase. clear Hcase.
  destruct (afterLoad_flags (resolvePath path2) p1) as (Hfq & Hrq & Haq & _).
  fold qa in Hfq, Hrq, Haq.
  assert (Hbq : boundTo cfg qa) by (by apply afterLoad_boundTo).
  assert (Hregq : ∀ f, f ∈ allFields → registered (flagName f) qa = true).
  { intros f _. unfold registered. rewrite Hrq. apply Hreg1. }
  destruct (afterRegisterAll_registered_same cfg allFields qa Hregq) as (Hf4 & Hr4 & Ht4).
  destruct (registerAndParse_again cfg pa qa Hba Hbq) as (e2 & p2 & H2).
  { congruence. }
  { congruence. }
  { by rewrite Hrp. }
  destruct (registerAndParse_Return cfg qa e2 p2 Hbq H2) as (Hv2 & Hm2 & _).
  destruct (registerAndParse_post cfg qa e2 p2 Hbq H2)
    as (_ & _ & Hform2 & Hregs2 & _ & _ & Htr2).
  assert (e2 = None) as ->.
  { rewrite Hv2. apply validate_nil. intros f. rewrite Hm2.
    specialize (Hv1 f). rewrite Hm1 in Hv1. unfold merged in *.
    rewrite Haq, Hargs1.
    destruct (lastPassed (flagName f) (passedFlags (osArgs pa))) as [v|] eqn:Hlp; [done|].
    simpl in Hv1. simpl. unfold resolved at 1.
    rewrite (Hregq f (elem_of_allFields f)). simpl.
    case_bool_decide as Hdv; [|done].
    unfold qa. rewrite afterLoad_deref, Hm1, Hlp. done. }
  exists p2. split; [done|]. split; [congruence|]. split; [congruence|].
  split; [|split].
  - intros name. unfold stringVarCount at 1. rewrite Htr2, Ht4.
    change (stringVarCount name (emit EvParse qa) = stringVarCount name p1).
    rewrite stringVarCount_emit by done. apply afterLoad_stringVarCount.
  - unfold parseCount at 1. rewrite Htr1.
    change (parseCount (emit EvParse (afterRegisterAll cfg allFields pa)) = S (parseCount p)).
    rewrite parseCount_emit_Parse, afterRegisterAll_parseCount.
    unfold pa. by rewrite afterLoad_parseCount.
  - unfold parseCount at 1. rewrite Htr2, Ht4.
    change (parseCount (emit EvParse qa) = S (parseCount p1)).
    rewrite parseCount_emit_Parse. unfold qa. by rewrite afterLoad_parseCount.
Qed.

Lemma loadConfig_second_call_witness :
  ∃ p1 p2, loadConfig 0%nat "" envOnly = Return None p1 ∧
    loadConfig 0%nat "" p1 = Return None p2 ∧
    formal p2 = formal p1 ∧ parseCount p2 = 2%nat.
Proof.
  destruct (loadConfig 0%nat "" envOnly) as [e p1| |] eqn:E;
    [|vm_compute in E; discriminate..].
  assert (e = None) as -> by (vm_compute in E; by injection E as <- _).
  assert (Hok : ∀ err, files p1 !! resolvePath "" ≠ Some (inl err)).
  { intros err. pose proof E as E'. vm_compute in E'. injection E' as <-.
    vm_compute. discriminate. }
  destruct (loadConfig_second_call 0%nat "" "" envOnly p1
              (freshProcess_boundTo _ _ _ _ _) E Hok)
    as (p2 & H2 & Hf & _ & _ & Hc1 & Hc2).
  exists p1, p2. repeat split; [done..|].
  rewrite Hc2, Hc1. reflexivity.
Defined.

(* ===================================================================== *)
(** ** The dice roll *)
(* ===================================================================== *)

Lemma delay_table :
  delay <$> seqZ 0 10 =
    [Second; Second; Second; Second; 2 * Second; 2 * Second;
     3 * Second; 3 * Second; 4 * Second; 4 * Second].
Proof. vm_compute. reflexivity. Qed.

Lemma roll_cases (roll : Z) :
  0 ≤ roll ≤ 9 →
  roll = 0 ∨ roll = 1 ∨ roll = 2 ∨ roll = 3 ∨ roll = 4 ∨
  roll = 5 ∨ roll = 6 ∨ roll = 7 ∨ roll = 8 ∨ roll = 9.
Proof. lia. Qed.

(** C7 as stated fails: the delay is not proportional to the roll. A roll
    of zero sleeps a full second, the rolls 2 and 3 sleep the same time, and
    no ratio [num/den] gives the delays of the ten rolls. *)
Lemma delay_not_proportional :
  delay 0 = Second ∧ delay 2 = delay 3 ∧
  ¬ ∃ num den : Z, den ≠ 0 ∧ ∀ roll, 0 ≤ roll ≤ 9 → den * delay roll = num * roll.
Proof.
  split; [reflexivity|]. split; [reflexivity|].
  intros (num & den & Hden & H). specialize (H 0 ltac:(lia)).
  change (delay 0) with 1000000000 in H. lia.
Qed.

(** C7 (as amended). For every roll the generator can produce, [rollDice]
    sleeps exactly once, for a time that is a function of the roll alone: one
    second for the rolls 0 and 1, and the integer half of the roll in seconds
    for the others. The delay never decreases as the roll grows, but it is
    not proportional to it. *)
Theorem rollDice_delay (roll : Z) :
  0 ≤ roll ≤ 9 →
  sleeps (rollDice roll) = [delay roll] ∧
  delay roll = Second * (if roll <=? 1 then 1 else roll `div` 2) ∧
  ∀ roll', roll ≤ roll' ≤ 9 → delay roll ≤ delay roll'.
Proof.
  intros Hr.
  assert (Hclosed : ∀ r, 0 ≤ r ≤ 9 → delay r = Second * (if r <=? 1 then 1 else r `div` 2)).
  { intros r H. destruct (roll_cases r H) as [->|[->|[->|[->|[->|[->|[->|[->|[->| ->]]]]]]]]];
      reflexivity. }
  split; [|split].
  - destruct (roll_cases roll Hr) as [->|[->|[->|[->|[->|[->|[->|[->|[->| ->]]]]]]]]];
      reflexivity.
  - by apply Hclosed.
  - intros roll' Hr'. rewrite !Hclosed by lia. unfold Second.
    destruct (Z.leb_spec roll 1), (Z.leb_spec roll' 1); try lia.
    + assert (1 ≤ roll' `div` 2) by (apply Z.div_le_lower_bound; lia). lia.
    + assert (roll `div` 2 ≤ roll' `div` 2) by (apply Z.div_le_mono; lia). lia.
Qed.

Lemma rollDice_delay_witness :
  0 ≤ 7 ≤ 9 ∧
  sleeps (rollDice 7) = [3 * Second] ∧
  delay 7 = 3 * Second.
Proof.
  split; [lia|].
  destruct (rollDice_delay 7 ltac:(lia)) as (H1 & H2 & _).
  split; [exact H1 | exact H2].
Defined.

(* ===================================================================== *)
(** ** The shutdown invariant *)
(* ===================================================================== *)

(** Membership in a list of other constructors is absurd. *)
Ltac no_member Hin :=
  exfalso; simpl in Hin;
  repeat (apply elem_of_cons in Hin as [Hin|Hin]; [discriminate Hin|]);
  by apply elem_of_nil in Hin.

Lemma quiet_app evs evs' : quiet evs → quiet evs' → quiet (evs ++ evs').
Proof. unfold quiet. intros. by apply Forall_app. Qed.

Lemma quiet_nil : quiet [].
Proof. by constructor. Qed.

Lemma rollDice_quiet roll : quiet (rollDice roll).
Proof.
  unfold rollDice, quiet. destruct (rollCase roll) as [[msg d]|]; by repeat constructor.
Qed.

Lemma generateData_roll_quiet rnd diceRolls rollFreq evs :
  generateData_roll rnd diceRolls rollFreq = Some evs → quiet evs.
Proof.
  unfold generateData_roll. destruct (rollFreq !! Intn rnd 10); [|done].
  intros [= <-].
  apply (quiet_app (rollDice (Intn rnd 10))); [apply rollDice_quiet | by repeat constructor].
Qed.

(** A step that adds only quiet events and leaves the listener and the
    server flag alone keeps the invariant. *)
Lemma shutdownInv_quiet s s' evs :
  shutdownInv s →
  listener s' = listener s → serverClosed s' = serverClosed s →
  log s' = (log s ++ evs)%list → quiet evs →
  (cancelled s' = true ↔ cancelled s = true ∨ CancelFired ∈ evs) →
  shutdownInv s'.
Proof.
  intros [Hc Hl] Hlis Hsrv Hlog Hq Hcanc. split.
  - rewrite Hlog, elem_of_app, Hcanc, Hc. done.
  - rewrite Hlis, Hsrv, Hlog. destruct (listener s).
    + destruct Hl as [Hql Hcl]. split; [by apply quiet_app | done].
    + destruct Hl as (Hcs & Hcl & pre & post & Hpp & Hin & Hq1 & Hq2).
      split; [apply Hcanc; by left|]. split; [done|].
      exists pre, (post ++ evs)%list. rewrite Hpp.
      split; [by rewrite <- !app_assoc|]. split; [done|].
      split; [done | by apply quiet_app].
Qed.

Lemma shutdownInv_same s s' :
  shutdownInv s →
  listener s' = listener s → serverClosed s' = serverClosed s →
  log s' = log s → cancelled s' = cancelled s →
  shutdownInv s'.
Proof.
  intros Hinv Hl Hs Hlog Hc. apply (shutdownInv_quiet s s' []); try done.
  - by rewrite app_nil_r.
  - apply quiet_nil.
  - rewrite Hc. split; [by left|]. intros [?|Hin]; [done|]. by apply elem_of_nil in Hin.
Qed.

Lemma cancel_shutdownInv s : shutdownInv s → shutdownInv (cancel s).
Proof.
  intros Hinv. unfold cancel. destruct (cancelled s) eqn:Hc; [done|].
  apply (shutdownInv_quiet s _ [CancelFired]); try done.
  - by repeat constructor.
  - simpl. split; [right; by left | done].
Qed.

Lemma cancel_cancelled s : cancelled (cancel s) = true.
Proof. unfold cancel. by destruct (cancelled s) eqn:E. Qed.

Lemma step_shutdownInv meter l s s' :
  shutdownInv s → step meter l s = Some s' → shutdownInv s'.
Proof.
  intros Hinv Hstep. unfold step in Hstep. destruct (exited s); [done|].
  destruct l; simpl in Hstep.
  - injection Hstep as <-. by apply cancel_shutdownInv.
  - injection Hstep as <-. case_decide; [|done]. by apply (shutdownInv_same s).
  - unfold handleTermination_step in Hstep.
    destruct (listener s) eqn:Hl; [|done]. destruct (cancelled s) eqn:Hc; [|done].
    injection Hstep as <-. destruct Hinv as [Hcf Hrun]. rewrite Hl in Hrun.
    destruct Hrun as [Hq _]. split; simpl.
    + rewrite Hc. split; [intros _|done]. apply elem_of_app. left. by apply Hcf.
    + split; [done|]. split; [done|]. exists (log s), [].
      split; [by rewrite ?app_nil_r|]. split; [by apply Hcf|]. split; [done | apply quiet_nil].
  - unfold handleTermination_step in Hstep.
    destruct (listener s) eqn:Hl; [|done]. destruct (interrupt s) as [|n]; [done|].
    injection Hstep as <-. apply cancel_shutdownInv. by apply (shutdownInv_same s).
  - unfold generateData_step in Hstep. destruct (emitter s); try done.
    destruct (generateData_setup meter) as [ev|[dr rf]] eqn:Hsetup; injection Hstep as <-.
    + apply (shutdownInv_quiet s _ [ev]); try done.
      * unfold generateData_setup in Hsetup.
        destruct (meter _ _); [|injection Hsetup as <-; by repeat constructor].
        destruct (rollCounters _ _ _); [|done].
        injection Hsetup as <-. by repeat constructor.
      * simpl. split; [by left|]. intros [?|Hin]; [done|].
        apply list_elem_of_singleton in Hin. subst ev.
        unfold generateData_setup in Hsetup.
        destruct (meter _ _); [|done]. by destruct (rollCounters _ _ _).
    + by apply (shutdownInv_same s).
  - unfold generateData_step in Hstep. destruct (emitter s) as [|dr rf| |]; try done.
    destruct (cancelled s) eqn:Hc.
    + injection Hstep as <-. by apply (shutdownInv_same s).
    + destruct (generateData_roll rnd dr rf) as [evs|] eqn:Hroll; injection Hstep as <-.
      * pose proof (generateData_roll_quiet _ _ _ _ Hroll) as Hq.
        apply (shutdownInv_quiet s _ evs); try done. simpl.
        split; [by left|]. intros [?|Hin]; [done|].
        unfold generateData_roll in Hroll. destruct (rf !! Intn rnd 10); [|done].
        injection Hroll as <-. unfold rollDice in Hin.
        destruct (rollCase _) as [[??]|]; no_member Hin.
      * by apply (shutdownInv_same s).
  - unfold servePprof_step in Hstep. destruct (server s); [|done].
    destruct (serverClosed s) eqn:Hsc; [done|]. injection Hstep as <-.
    apply (shutdownInv_quiet s _ [LogError "Serving pprof data" "err" None]); try done.
    + by repeat constructor.
    + simpl. split; [by left|]. intros [?|Hin]; [done|]. no_member Hin.
  - unfold servePprof_step in Hstep. destruct (server s); [|done].
    destruct (serverClosed s) eqn:Hsc; [|done]. injection Hstep as <-.
    by apply (shutdownInv_same s).
  - case_decide; [|done]. injection Hstep as <-.
    apply (shutdownInv_same (cancel s)); try done. by apply cancel_shutdownInv.
Qed.

Lemma init_shutdownInv : shutdownInv init.
Proof.
  split; simpl.
  - split; [done|]. intros Hin. by apply elem_of_nil in Hin.
  - split; [apply quiet_nil | done].
Qed.

Lemma run_invariant (P : Sys → Prop) meter :
  (∀ l s s', P s → step meter l s = Some s' → P s') →
  ∀ ls s s', P s → run meter ls s = Some s' → P s'.
Proof.
  intros Hstep. induction ls as [|l ls IH]; intros s s' Hs; simpl.
  - by intros [= <-].
  - destruct (step meter l s) as [s1|] eqn:E; [|done]. apply IH. by eapply Hstep.
Qed.

Lemma reachable_shutdownInv meter s : reachable meter s → shutdownInv s.
Proof.
  intros [ls Hrun].
  eapply (run_invariant shutdownInv); [apply step_shutdownInv | apply init_shutdownInv | done].
Qed.

(* ===================================================================== *)
(** ** The WaitGroup and the emitter *)
(* ===================================================================== *)

Lemma cancel_frame s :
  wg (cancel s) = wg s ∧ listener (cancel s) = listener s ∧
  emitter (cancel s) = emitter s ∧ server (cancel s) = server s ∧
  exited (cancel s) = exited s ∧ interrupt (cancel s) = interrupt s ∧
  serverClosed (cancel s) = serverClosed s.
Proof. unfold cancel. by destruct (cancelled s). Qed.

Lemma step_wgInv meter l s s' : wgInv s → step meter l s = Some s' → wgInv s'.
Proof.
  intros [Hwg Hex] Hstep. unfold wgInv. unfold step in Hstep.
  destruct (exited s) eqn:Hexit; [done|].
  destruct l; simpl in Hstep.
  - injection Hstep as <-. destruct (cancel_frame s) as (-> & -> & -> & -> & -> & _).
    split; [done | by rewrite Hexit].
  - injection Hstep as <-. case_decide; (split; [done | simpl; by rewrite Hexit]).
  - unfold handleTermination_step in Hstep.
    destruct (listener s) eqn:Hl; [|done]. destruct (cancelled s); [|done].
    injection Hstep as <-. split; simpl in *; [lia | by rewrite Hexit].
  - unfold handleTermination_step in Hstep.
    destruct (listener s) eqn:Hl; [|done]. destruct (interrupt s) as [|n]; [done|].
    injection Hstep as <-.
    destruct (cancel_frame (set_interrupt n s)) as (-> & -> & -> & -> & -> & _).
    simpl. rewrite Hl. split; [done | by rewrite Hexit].
  - unfold generateData_step in Hstep. destruct (emitter s) eqn:He; try done.
    destruct (generateData_setup meter) as [ev|[dr rf]]; injection Hstep as <-;
      (split; simpl in *; [lia | by rewrite Hexit]).
  - unfold generateData_step in Hstep. destruct (emitter s) as [|dr rf| |] eqn:He; try done.
    destruct (cancelled s).
    + injection Hstep as <-. split; simpl in *; [lia | by rewrite Hexit].
    + destruct (generateData_roll rnd dr rf); injection Hstep as <-;
        (split; simpl in *; [by rewrite ?He | by rewrite Hexit]).
  - unfold servePprof_step in Hstep. destruct (server s) eqn:Hs; [|done].
    destruct (serverClosed s); [done|]. injection Hstep as <-.
    split; simpl in *; [lia | by rewrite Hexit].
  - unfold servePprof_step in Hstep. destruct (server s) eqn:Hs; [|done].
    destruct (serverClosed s); [|done]. injection Hstep as <-.
    split; simpl in *; [lia | by rewrite Hexit].
  - case_decide as Hz; [|done]. injection Hstep as <-.
    destruct (cancel_frame s) as (Hw & Hl & He & Hs & _). simpl.
    rewrite Hw, Hl, He, Hs. done.
Qed.

Lemma reachable_wgInv meter s : reachable meter s → wgInv s.
Proof.
  intros [ls Hrun].
  eapply (run_invariant wgInv); [apply step_wgInv | | done]. by split.
Qed.

(** While a task is running, [main] has not returned. *)
Lemma wgInv_listener_running s : wgInv s → listener s = Running → exited s = false.
Proof.
  intros [Hwg Hex] Hl. destruct (exited s); [|done]. specialize (Hex eq_refl).
  rewrite Hl in Hwg. simpl in Hwg.
  destruct (emitter s), (server s); simpl in Hwg; lia.
Qed.

(** The map the setup loop fills holds, for each index it went through, the
    counter the meter returned for it. *)
Lemma rollCounters_lookup meter idxs : ∀ m rollFreq,
  rollCounters meter idxs m = inr rollFreq →
  ∀ idx,
    (idx ∈ idxs →
       is_Some (rollFreq !! idx) ∧
       rollFreq !! idx = meter (rollCounterName idx) (rollCounterDescription idx)) ∧
    (idx ∉ idxs → rollFreq !! idx = m !! idx).
Proof.
  induction idxs as [|i idxs IH]; intros m rollFreq H idx; simpl in H.
  - injection H as <-. split; [by intros ?%elem_of_nil | done].
  - destruct (meter (rollCounterName i) (rollCounterDescription i)) as [c|] eqn:Hm; [|done].
    destruct (IH _ _ H idx) as [Hin Hout].
    destruct (decide (idx ∈ idxs)) as [Hmem|Hmem].
    + split; [intros _; by apply Hin | intros Hn; by apply not_elem_of_cons in Hn as [_ ?]].
    + split.
      * intros [->|?]%elem_of_cons; [|done].
        rewrite Hout, lookup_insert_eq, Hm by done. eauto.
      * intros [Hne _]%not_elem_of_cons. by rewrite Hout, lookup_insert_ne.
Qed.

Lemma rollCounters_fails meter idxs : ∀ m,
  Exists (fun idx => meter (rollCounterName idx) (rollCounterDescription idx) = None) idxs →
  ∃ idx, rollCounters meter idxs m = inl idx.
Proof.
  induction idxs as [|i idxs IH]; intros m Hex; simpl.
  - by apply Exists_nil in Hex.
  - destruct (meter (rollCounterName i) (rollCounterDescription i)) as [c|] eqn:Hm; [|eauto].
    apply Exists_cons in Hex as [Hi|Hex]; [congruence | by apply IH].
Qed.

Lemma Intn_range rnd : 0 ≤ Intn rnd 10 ≤ 9.
Proof. unfold Intn. pose proof (Z.mod_pos_bound rnd 10). lia. Qed.

(** After a successful setup, the map has exactly the keys 0 to 10. *)
Lemma generateData_setup_rollFreq meter diceRolls rollFreq :
  generateData_setup meter = inr (diceRolls, rollFreq) →
  ∀ idx, (is_Some (rollFreq !! idx) ↔ 0 ≤ idx ≤ 10) ∧
         (0 ≤ idx ≤ 10 →
          rollFreq !! idx = meter (rollCounterName idx) (rollCounterDescription idx)).
Proof.
  unfold generateData_setup. destruct (meter "dice-rolls" _) as [d|]; [|done].
  destruct (rollCounters meter (seqZ 0 11) ∅) as [i|rf] eqn:H; [done|].
  intros [= <- <-] idx. destruct (rollCounters_lookup _ _ _ _ H idx) as [Hin Hout].
  destruct (decide (idx ∈ seqZ 0 11)) as [Hmem|Hmem].
  - pose proof Hmem as Hr. apply elem_of_seqZ in Hr. destruct (Hin Hmem) as [Hs He].
    split; [split; [lia | done] | done].
  - assert (¬ (0 ≤ idx ≤ 10)) by (intros ?; apply Hmem, elem_of_seqZ; lia).
    split; [|done]. rewrite (Hout Hmem), lookup_empty. split; [by intros [? ?] | done].
Qed.

Lemma step_emitterInv meter l s s' :
  emitterInv meter s → step meter l s = Some s' → emitterInv meter s'.
Proof.
  intros Hinv Hstep. unfold step in Hstep. destruct (exited s); [done|].
  unfold emitterInv in *.
  destruct l; simpl in Hstep.
  - injection Hstep as <-. by destruct (cancel_frame s) as (_ & _ & -> & _).
  - injection Hstep as <-. by case_decide.
  - unfold handleTermination_step in Hstep.
    destruct (listener s); [|done]. destruct (cancelled s); [|done]. by injection Hstep as <-.
  - unfold handleTermination_step in Hstep.
    destruct (listener s); [|done]. destruct (interrupt s) as [|n]; [done|].
    injection Hstep as <-. by destruct (cancel_frame (set_interrupt n s)) as (_ & _ & -> & _).
  - unfold generateData_step in Hstep. destruct (emitter s); try done.
    by destruct (generateData_setup meter) as [ev|[dr rf]] eqn:E; injection Hstep as <-.
  - unfold generateData_step in Hstep. destruct (emitter s) as [|dr rf| |] eqn:He; try done.
    destruct (cancelled s); [by injection Hstep as <-|].
    destruct (generateData_roll rnd dr rf) as [evs|] eqn:Hroll; injection Hstep as <-; simpl.
    + by rewrite He.
    + unfold generateData_roll in Hroll.
      destruct (generateData_setup_rollFreq _ _ _ Hinv (Intn rnd 10)) as [[_ Hsome] _].
      pose proof (Intn_range rnd) as Hr.
      destruct Hsome as [c Hc]; [lia|]. by rewrite Hc in Hroll.
  - unfold servePprof_step in Hstep. destruct (server s); [|done].
    destruct (serverClosed s); [done|]. by injection Hstep as <-.
  - unfold servePprof_step in Hstep. destruct (server s); [|done].
    destruct (serverClosed s); [|done]. by injection Hstep as <-.
  - case_decide; [|done]. injection Hstep as <-. simpl.
    by destruct (cancel_frame s) as (_ & _ & -> & _).
Qed.

Lemma reachable_emitterInv meter s : reachable meter s → emitterInv meter s.
Proof.
  intros [ls Hrun].
  eapply (run_invariant (emitterInv meter)); [apply step_emitterInv | | done]. done.
Qed.

(* ===================================================================== *)
(** ** Properties of the lifecycle *)
(* ===================================================================== *)

Lemma quiet_teardownCalls evs : quiet evs → filter (fun ev => isTeardown ev) evs = [].
Proof.
  induction 1 as [|ev evs Hev _ IH]; [done|].
  rewrite filter_cons_False; [done|]. rewrite Hev. by intros [].
Qed.

Lemma quiet_no_ServerClose evs :
  quiet evs → length (filter (fun ev => ev = ServerClose) evs) = 0%nat.
Proof.
  induction 1 as [|ev evs Hev _ IH]; [done|].
  rewrite filter_cons_False; [done|]. by intros ->.
Qed.

Lemma reachable_stateAfter meter ls :
  is_Some (run meter ls init) → reachable meter (stateAfter meter ls).
Proof. intros [s Hs]. exists ls. unfold stateAfter. by rewrite Hs. Qed.

(** C4. In every execution the teardown sequence is started at most once;
    it has run exactly once when the listener has returned, and not at all
    before, whichever way the shutdown was triggered. While the listener
    runs, a cancelled context makes it run the teardown and return, and an
    interrupt makes it cancel first and then do the same: both triggers end
    in one teardown, also when they arrive together. *)
Theorem teardown_runs_once meter s :
  reachable meter s →
  (teardownCount s ≤ 1)%nat ∧
  (listener s = Returned ↔ teardownCount s = 1%nat) ∧
  (listener s = Returned → cancelled s = true) ∧
  (listener s = Running → cancelled s = true →
   ∃ s', step meter SelectDone s = Some s' ∧
         listener s' = Returned ∧ teardownCount s' = 1%nat) ∧
  (listener s = Running → interrupt s = 1%nat →
   ∃ s1 s2, step meter SelectInterrupt s = Some s1 ∧
            cancelled s1 = true ∧ listener s1 = Running ∧ teardownCount s1 = 0%nat ∧
            step meter SelectDone s1 = Some s2 ∧
            listener s2 = Returned ∧ teardownCount s2 = 1%nat).
Proof.
  intros Hreach.
  pose proof (reachable_shutdownInv meter s Hreach) as [Hcf Hl].
  pose proof (reachable_wgInv meter s Hreach) as Hwg.
  assert (Hcount : teardownCount s = match listener s with Running => 0 | Returned => 1 end%nat).
  { unfold teardownCount. destruct (listener s).
    - destruct Hl as [Hq _]. by apply quiet_no_ServerClose.
    - destruct Hl as (_ & _ & pre & post & -> & _ & Hq1 & Hq2).
      rewrite !filter_app, !length_app.
      rewrite (quiet_no_ServerClose pre), (quiet_no_ServerClose post) by done.
      reflexivity. }
  assert (Hdone : ∀ t, listener t = Running → cancelled t = true → exited t = false →
            teardownCount t = 0%nat →
            ∃ t', step meter SelectDone t = Some t' ∧
                  listener t' = Returned ∧ teardownCount t' = 1%nat).
  { intros t Ht Hc He Hn. unfold step, handleTermination_step. rewrite He, Ht, Hc.
    eexists. split; [reflexivity|]. split; [reflexivity|].
    unfold teardownCount in *. simpl. rewrite filter_app, length_app, Hn. reflexivity. }
  split; [rewrite Hcount; destruct (listener s); lia|].
  split; [rewrite Hcount; destruct (listener s); split; (done || lia)|].
  split; [intros Hr; rewrite Hr in Hl; by destruct Hl|].
  split.
  - intros Hrun Hc. apply Hdone; try done.
    + by apply wgInv_listener_running.
    + by rewrite Hcount, Hrun.
  - intros Hrun Hint.
    pose proof (wgInv_listener_running s Hwg Hrun) as He.
    assert (H1 : step meter SelectInterrupt s = Some (cancel (set_interrupt 0 s))).
    { unfold step, handleTermination_step. by rewrite He, Hrun, Hint. }
    assert (Hinv1 : shutdownInv (cancel (set_interrupt 0 s))).
    { eapply step_shutdownInv; [|exact H1]. by split. }
    destruct (cancel_frame (set_interrupt 0 s)) as (_ & Hl1 & _ & _ & He1 & _).
    simpl in Hl1, He1. rewrite Hrun in Hl1. rewrite He in He1.
    assert (Hn1 : teardownCount (cancel (set_interrupt 0 s)) = 0%nat).
    { destruct Hinv1 as [_ Hq]. rewrite Hl1 in Hq. destruct Hq as [Hq _].
      by apply quiet_no_ServerClose. }
    destruct (Hdone _ Hl1 (cancel_cancelled _) He1 Hn1) as (s2 & H2 & Hl2 & Hn2).
    exists (cancel (set_interrupt 0 s)), s2.
    split; [done|]. split; [apply cancel_cancelled|]. done.
Qed.

Lemma teardown_runs_once_witness :
  reachable goodMeter (stateAfter goodMeter raceSchedule) ∧
  listener (stateAfter goodMeter raceSchedule) = Returned ∧
  teardownCount (stateAfter goodMeter raceSchedule) = 1%nat.
Proof.
  assert (Hr : reachable goodMeter (stateAfter goodMeter raceSchedule)).
  { apply reachable_stateAfter. vm_compute. eauto. }
  split; [exact Hr|].
  destruct (teardown_runs_once goodMeter _ Hr) as (_ & [Hret _] & _).
  assert (Hl : listener (stateAfter goodMeter raceSchedule) = Returned)
    by (vm_compute; reflexivity).
  split; [exact Hl | exact (Hret Hl)].
Defined.

(** C5. In every execution the teardown calls are made only after the
    cancellation of the context, each exactly once and in the fixed order:
    pprof server close, log provider shutdown, trace provider shutdown,
    metrics provider shutdown. While the listener runs none of them has
    been made, and once the context is cancelled its next step makes the
    four of them, in that order, and returns. When the listener has returned
    the calls made are exactly these four, once each, in that order, with
    the cancellation before them in the log; so it is when [main] ends. *)
Theorem teardown_order meter s :
  reachable meter s →
  (teardownCalls s ≠ [] → cancelled s = true) ∧
  match listener s with
  | Running =>
      teardownCalls s = [] ∧
      (cancelled s = true →
       ∃ s', step meter SelectDone s = Some s' ∧ listener s' = Returned ∧
             log s' = (log s ++ [ServerClose; LogShutdown; TraceShutdown; MeterShutdown])%list)
  | Returned =>
      teardownCalls s = [ServerClose; LogShutdown; TraceShutdown; MeterShutdown] ∧
      ∃ pre post,
        log s = (pre ++ [ServerClose; LogShutdown; TraceShutdown; MeterShutdown] ++ post)%list ∧
        CancelFired ∈ pre ∧ quiet pre ∧ quiet post
  end ∧
  (exited s = true →
   teardownCalls s = [ServerClose; LogShutdown; TraceShutdown; MeterShutdown]).
Proof.
  intros Hreach.
  pose proof (reachable_shutdownInv meter s Hreach) as [_ Hl].
  pose proof (reachable_wgInv meter s Hreach) as Hwg.
  assert (Hcalls : match listener s with
                   | Running => teardownCalls s = []
                   | Returned =>
                       teardownCalls s = [ServerClose; LogShutdown; TraceShutdown; MeterShutdown]
                   end).
  { unfold teardownCalls. destruct (listener s).
    - destruct Hl as [Hq _]. by apply quiet_teardownCalls.
    - destruct Hl as (_ & _ & pre & post & Hlog & _ & Hq1 & Hq2).
      rewrite Hlog, !filter_app.
      rewrite (quiet_teardownCalls pre), (quiet_teardownCalls post) by done.
      reflexivity. }
  split; [|split].
  - intros Hne. destruct (listener s); [done|]. by destruct Hl as (Hc & _).
  - destruct (listener s) eqn:Hlis.
    + split; [done|]. intros Hc.
      pose proof (wgInv_listener_running s Hwg Hlis) as Hex.
      unfold step, handleTermination_step. rewrite Hex, Hlis, Hc.
      eexists. split; [reflexivity|]. by split.
    + split; [done|].
      destruct Hl as (_ & _ & pre & post & Hlog & Hin & Hq1 & Hq2). by exists pre, post.
  - intros Hex. destruct (listener s) eqn:Hlis; [|done].
    pose proof (wgInv_listener_running s Hwg Hlis). congruence.
Qed.

Lemma teardown_order_witness :
  reachable goodMeter (stateAfter goodMeter raceSchedule) ∧
  exited (stateAfter goodMeter raceSchedule) = true ∧
  teardownCalls (stateAfter goodMeter raceSchedule) =
    [ServerClose; LogShutdown; TraceShutdown; MeterShutdown].
Proof.
  assert (Hr : reachable goodMeter (stateAfter goodMeter raceSchedule)).
  { apply reachable_stateAfter. vm_compute. eauto. }
  split; [exact Hr|]. split; [reflexivity|].
  destruct (teardown_order goodMeter _ Hr) as (_ & _ & Hexit).
  exact (Hexit eq_refl).
Defined.

(** C9. In every execution [generateData] never panics. In its loop the
    map [rollFreq] has exactly the keys 0 to 10, each with the counter the
    meter made for that number; every roll lies in 0 to 9, so the lookup
    [rollFreq[roll]] finds a counter and both [Add] calls are made. *)
Theorem generateData_roll_finds_counter meter s :
  reachable meter s →
  emitter s ≠ EPanicked ∧
  ∀ diceRolls rollFreq, emitter s = ELoop diceRolls rollFreq →
    (∀ idx, is_Some (rollFreq !! idx) ↔ 0 ≤ idx ≤ 10) ∧
    ∀ rnd,
      0 ≤ Intn rnd 10 ≤ 9 ∧
      ∃ counter,
        rollFreq !! Intn rnd 10 = Some counter ∧
        meter (rollCounterName (Intn rnd 10)) (rollCounterDescription (Intn rnd 10))
          = Some counter ∧
        generateData_roll rnd diceRolls rollFreq =
          Some (rollDice (Intn rnd 10) ++ [CounterAdd diceRolls 1; CounterAdd counter 1])%list.
Proof.
  intros Hreach. pose proof (reachable_emitterInv meter s Hreach) as Hinv.
  unfold emitterInv in Hinv. split; [by destruct (emitter s)|].
  intros dr rf He. rewrite He in Hinv.
  pose proof (generateData_setup_rollFreq meter dr rf Hinv) as Hrf.
  split; [intros idx; apply Hrf|].
  intros rnd. pose proof (Intn_range rnd) as Hr. split; [done|].
  destruct (Hrf (Intn rnd 10)) as [[_ Hsome] Hm].
  destruct Hsome as [c Hc]; [lia|]. exists c.
  split; [done|]. split; [by rewrite <- Hm, Hc by lia|].
  unfold generateData_roll. by rewrite Hc.
Qed.

Lemma generateData_roll_finds_counter_witness :
  reachable goodMeter (stateAfter goodMeter [EmitterSetup; EmitterIterate 7]) ∧
  emitter (stateAfter goodMeter [EmitterSetup; EmitterIterate 7]) ≠ EPanicked.
Proof.
  assert (Hr : reachable goodMeter (stateAfter goodMeter [EmitterSetup; EmitterIterate 7])).
  { apply reachable_stateAfter. vm_compute. eauto. }
  split; [exact Hr|].
  exact (proj1 (generateData_roll_finds_counter goodMeter _ Hr)).
Defined.

(* ===================================================================== *)
(** ** A counter that cannot be created *)
(* ===================================================================== *)

Lemma generateData_setup_fails meter :
  Exists (fun i => meter i.1 i.2 = None) instruments →
  ∃ msg name number, generateData_setup meter = inl (LogError msg name number).
Proof.
  unfold instruments, generateData_setup. intros Hex.
  destruct (meter "dice-rolls" _) as [d|] eqn:Hd; [|eauto].
  apply Exists_cons in Hex as [Hhd|Hex]; [simpl in Hhd; congruence|].
  apply Exists_fmap in Hex.
  destruct (rollCounters_fails meter (seqZ 0 11) ∅ Hex) as [idx ->]. eauto.
Qed.

(** Once [generateData] has returned, no step brings it back, and no step
    of the others adds a roll event to the log. *)
Lemma step_after_return meter l s s' :
  emitter s = EReturned → step meter l s = Some s' →
  emitter s' = EReturned ∧
  filter (fun ev => isRollEvent ev) (log s') = filter (fun ev => isRollEvent ev) (log s).
Proof.
  intros He Hstep. unfold step in Hstep. destruct (exited s); [done|].
  assert (Hcancel : ∀ t, filter (fun ev => isRollEvent ev) (log (cancel t))
                         = filter (fun ev => isRollEvent ev) (log t)).
  { intros t. unfold cancel. destruct (cancelled t); [done|]. simpl.
    by rewrite filter_app, app_nil_r. }
  destruct l; simpl in Hstep.
  - injection Hstep as <-. destruct (cancel_frame s) as (_ & _ & -> & _). by rewrite Hcancel.
  - injection Hstep as <-. by case_decide.
  - unfold handleTermination_step in Hstep.
    destruct (listener s); [|done]. destruct (cancelled s); [|done].
    injection Hstep as <-. simpl. by rewrite filter_app, app_nil_r.
  - unfold handleTermination_step in Hstep.
    destruct (listener s); [|done]. destruct (interrupt s) as [|n]; [done|].
    injection Hstep as <-.
    destruct (cancel_frame (set_interrupt n s)) as (_ & _ & -> & _). by rewrite Hcancel.
  - unfold generateData_step in Hstep. by rewrite He in Hstep.
  - unfold generateData_step in Hstep. by rewrite He in Hstep.
  - unfold servePprof_step in Hstep. destruct (server s); [|done].
    destruct (serverClosed s); [done|]. injection Hstep as <-. simpl.
    by rewrite filter_app, app_nil_r.
  - unfold servePprof_step in Hstep. destruct (server s); [|done].
    destruct (serverClosed s); [|done]. by injection Hstep as <-.
  - case_decide; [|done]. injection Hstep as <-. simpl.
    destruct (cancel_frame s) as (_ & _ & -> & _). by rewrite Hcancel.
Qed.

(** C8. If the meter fails to create one of the counters, the setup step
    of [generateData] logs one error and returns: the task is done, it never
    enters the roll loop (no roll event is ever logged afterwards), and the
    step touches nothing the other two tasks depend on: the context is not
    cancelled, the server is not closed, the listener and the server are
    where they were, and each of their steps can be taken after the failure
    exactly when it could be taken before. *)
Theorem generateData_counter_failure meter s :
  Exists (fun i => meter i.1 i.2 = None) instruments →
  emitter s = ESetup → exited s = false →
  ∃ msg name number s',
    step meter EmitterSetup s = Some s' ∧
    emitter s' = EReturned ∧
    log s' = (log s ++ [LogError msg name number])%list ∧
    wg s' = wg s - 1 ∧
    (listener s' = listener s ∧ server s' = server s ∧ cancelled s' = cancelled s ∧
     interrupt s' = interrupt s ∧ serverClosed s' = serverClosed s ∧
     exited s' = exited s) ∧
    (∀ l, l ∈ otherLabels → is_Some (step meter l s') ↔ is_Some (step meter l s)) ∧
    (∀ ls s'', run meter ls s' = Some s'' →
       emitter s'' = EReturned ∧
       filter (fun ev => isRollEvent ev) (log s'') = filter (fun ev => isRollEvent ev) (log s)).
Proof.
  intros Hex He Hexit.
  destruct (generateData_setup_fails meter Hex) as (msg & name & number & Hsetup).
  exists msg, name, number. eexists.
  split; [unfold step, generateData_step; by rewrite Hexit, He, Hsetup|].
  split; [done|]. split; [done|]. split; [done|]. split; [done|].
  split.
  - intros l Hl. unfold step, handleTermination_step, servePprof_step. simpl. rewrite Hexit.
    unfold otherLabels in Hl.
    assert (Hcases : l = ExternalCancel ∨ l = Signal ∨ l = SelectDone ∨
                     l = SelectInterrupt ∨ l = ServeFails ∨ l = ServeClosed).
    { repeat (apply elem_of_cons in Hl as [->|Hl]; [tauto|]). by apply elem_of_nil in Hl. }
    destruct Hcases as [->|[->|[->|[->|[->| ->]]]]]; simpl;
      destruct (listener s), (cancelled s), (interrupt s), (server s), (serverClosed s);
      simpl; (split; intros [? ?]; first [discriminate | eauto]).
  - intros ls s'' Hrun.
    eapply (run_invariant (fun t => emitter t = EReturned ∧
              filter (fun ev => isRollEvent ev) (log t)
              = filter (fun ev => isRollEvent ev) (log s))); [| |exact Hrun].
    + intros l t t' [Ht Hlog] Hstep.
      destruct (step_after_return meter l t t' Ht Hstep) as [? ->]. done.
    + split; [done|]. simpl. by rewrite filter_app, app_nil_r.
Qed.

Lemma generateData_counter_failure_witness :
  Exists (fun i => failingMeter i.1 i.2 = None) instruments ∧
  ∃ s', step failingMeter EmitterSetup init = Some s' ∧
        emitter s' = EReturned ∧
        log s' = [LogError "Creating roll counter" "roll" (Some 7)] ∧
        listener s' = Running ∧ server s' = Running ∧ cancelled s' = false.
Proof.
  assert (Hex : Exists (fun i => failingMeter i.1 i.2 = None) instruments).
  { apply Exists_exists. exists (rollCounterName 7, rollCounterDescription 7).
    split; [|reflexivity]. unfold instruments. right.
    apply list_elem_of_fmap. exists 7. split; [reflexivity|].
    apply elem_of_seqZ. lia. }
  split; [exact Hex|].
  destruct (generateData_counter_failure failingMeter init Hex eq_refl eq_refl)
    as (msg & name & number & s' & Hstep & He & Hlog & _ & (Hl & Hs & Hc & _) & _).
  exists s'. split; [exact Hstep|]. split; [exact He|].
  split; [|by rewrite Hl, Hs, Hc].
  vm_compute in Hstep. injection Hstep as <-. reflexivity.
Defined.

(* ===================================================================== *)
(** ** registerFlag on its own *)
(* ===================================================================== *)

(** X1. The first registration of a name defines the flag with the environment
    value as its default and gives that value to the variable, whatever the
    variable held, also when the value is empty; nothing else of the flag
    package changes. *)
Theorem registerFlag_first name q usage p :
  validFlagName name →
  registered name p = false →
  formal p !! name = None →
  ∃ p', registerFlag name q usage p = Return None p' ∧
    getField q.2 (deref q.1 p') = Getenv name p ∧
    registered name p' = true ∧
    formal p' !! name = Some (mkFlag q usage (Getenv name p)) ∧
    (∀ n, n ≠ name → formal p' !! n = formal p !! n ∧ registered n p' = registered n p) ∧
    environ p' = environ p.
Proof.
  intros [Hpre Hidx] Hreg Hfree.
  unfold registerFlag, bind, gets, modify, ret, flag_StringVar.
  rewrite Hreg. simpl. rewrite Hpre, Hidx. simpl. rewrite Hfree. simpl.
  unfold registered at 1. simpl. rewrite lookup_insert_eq. simpl.
  case_bool_decide as Hdv; simpl; eexists; (split; [reflexivity|]).
  - split; [deref_norm; apply getField_store|].
    split; [unfold registered; simpl; by rewrite lookup_insert_eq|].
    split; [simpl; by rewrite lookup_insert_eq|].
    split; [|done]. intros n Hn. unfold registered. simpl.
    by rewrite !lookup_insert_ne.
  - split; [apply getField_store|].
    split; [unfold registered; simpl; by rewrite lookup_insert_eq|].
    split; [simpl; by rewrite lookup_insert_eq|].
    split; [|done]. intros n Hn. unfold registered. simpl.
    by rewrite !lookup_insert_ne.
Qed.

Lemma registerFlag_first_witness :
  ∃ p', registerFlag "servicename" (0%nat, FServiceName) "the service name"
          (freshProcess ∅ ∅ [] {[ 0%nat := demoConfig ]}) = Return None p' ∧
    getField FServiceName (deref 0%nat p') = "".
Proof.
  destruct (registerFlag_first "servicename" (0%nat, FServiceName) "the service name"
              (freshProcess ∅ ∅ [] {[ 0%nat := demoConfig ]}))
    as (p' & H & Hf & _); [split; reflexivity | reflexivity | reflexivity |].
  exists p'. split; [exact H | exact Hf].
Defined.

(** X2. Registering a name again defines nothing: the flag tables and the trace
    are unchanged, so the flag keeps the pointer of its first registration.
    The pointer passed now receives the environment value when that is not
    empty, and is left alone otherwise. *)
Theorem registerFlag_again name q usage p :
  registered name p = true →
  ∃ p', registerFlag name q usage p = Return None p' ∧
    formal p' = formal p ∧ registeredFlags p' = registeredFlags p ∧
    trace p' = trace p ∧
    (Getenv name p = "" → p' = p) ∧
    (Getenv name p ≠ "" → p' = store q (Getenv name p) p).
Proof.
  intros Hreg. unfold registerFlag, bind, gets, modify, ret.
  rewrite Hreg. simpl. rewrite Hreg. simpl.
  case_bool_decide as Hdv; simpl; eexists; (split; [reflexivity|]); by repeat split.
Qed.

Lemma registerFlag_again_witness :
  ∃ p', registerFlag "servicename" (1%nat, FServiceName) "the service name"
          otherConfigLoaded = Return None p' ∧
    formal p' = formal otherConfigLoaded.
Proof.
  destruct (registerFlag_again "servicename" (1%nat, FServiceName) "the service name"
              otherConfigLoaded) as (p' & H & Hf & _); [vm_compute; reflexivity|].
  exists p'. split; [exact H | exact Hf].
Defined.

(** X3. A name that is defined in [flag.CommandLine] but not recorded in
    [registeredFlags] (defined by other code) makes [registerFlag] panic
    in [flag.StringVar], with the flag set's redefinition panic for that
    name. *)
Theorem registerFlag_redefined_panics name q usage p fl :
  validFlagName name →
  registered name p = false →
  formal p !! name = Some fl →
  ∃ p', registerFlag name q usage p = Panic (FlagRedefined name) p'.
Proof.
  intros [Hpre Hidx] Hreg Hdef.
  unfold registerFlag, bind, gets, modify, ret, flag_StringVar.
  rewrite Hreg. simpl. rewrite Hpre, Hidx. simpl. rewrite Hdef. eauto.
Qed.

Lemma registerFlag_redefined_panics_witness :
  ∃ p', registerFlag "servicename" (0%nat, FServiceName) "the service name"
          clashingProcess = Panic (FlagRedefined "servicename") p'.
Proof.
  apply (registerFlag_redefined_panics "servicename" (0%nat, FServiceName)
           "the service name" clashingProcess (mkFlag (7%nat, FServiceName) "" ""));
    [split; reflexivity | reflexivity | reflexivity].
Defined.

(* ===================================================================== *)
(** ** loadConfig: clashes and the command line *)
(* ===================================================================== *)

Lemma loadConfig_loadable cfg path p :
  (∀ err, files p !! resolvePath path ≠ Some (inl err)) →
  loadConfig cfg path p = registerAndParse cfg (afterLoad (resolvePath path) p).
Proof.
  intros Hok. rewrite loadConfig_cases.
  destruct (files p !! resolvePath path) as [[err|m]|] eqn:E; [|done..].
  by destruct (Hok err).
Qed.

Lemma formal_emit ev p : formal (emit ev p) = formal p.
Proof. reflexivity. Qed.

Lemma afterLoad_registered path n p : registered n (afterLoad path p) = registered n p.
Proof. unfold afterLoad. by destruct (files p !! path) as [[?|?]|]. Qed.

Lemma afterLoad_noClash path p : noClash p → noClash (afterLoad path p).
Proof.
  intros H f. rewrite afterLoad_registered.
  destruct (afterLoad_flags path p) as (-> & _). apply H.
Qed.

Lemma afterRegister_noClash cfg g p :
  noClash p → noClash (afterRegister (flagName g) (cfg, g) (flagUsage g) p).
Proof.
  intros H f. rewrite afterRegister_registered, afterRegister_formal.
  case_decide as Hn; [done|]. intros Hf.
  destruct (registered (flagName g) p); by apply H.
Qed.

Lemma afterRegisterAll_noClash cfg fs : ∀ p,
  noClash p → noClash (afterRegisterAll cfg fs p).
Proof.
  induction fs as [|g fs IH]; intros p H; simpl; [done|].
  apply IH. by apply afterRegister_noClash.
Qed.

Lemma boundTo_noClash cfg p : boundTo cfg p → noClash p.
Proof. intros Hb f. by apply (boundTo_free cfg). Qed.

(** Without a clash no [registerFlag] call panics. *)
Lemma registerAndParse_noClash cfg p :
  noClash p →
  registerAndParse cfg p =
    (flag_Parse ;; gets (fun p => validate (deref cfg p)))
      (afterRegisterAll cfg allFields p).
Proof.
  intros Hc. rewrite registerAndParse_unfold. unfold bind at 1.
  rewrite registerFlag_afterRegister by apply Hc.
  apply (afterRegister_noClash cfg FCollectorGRPCURL) in Hc.
  unfold bind at 1.
  rewrite registerFlag_afterRegister by apply Hc.
  apply (afterRegister_noClash cfg FCollectorHTTPURL) in Hc.
  unfold bind at 1.
  rewrite registerFlag_afterRegister by apply Hc.
  apply (afterRegister_noClash cfg FServiceName) in Hc.
  unfold bind at 1.
  rewrite registerFlag_afterRegister by apply Hc.
  reflexivity.
Qed.

(** Registration defines the four names and no other. *)
Lemma afterRegisterAll_formal_other cfg fs n : ∀ p,
  n ∉ flagNames → formal (afterRegisterAll cfg fs p) !! n = formal p !! n.
Proof.
  intros p Hn. revert p. induction fs as [|g fs IH]; intros p; simpl; [done|].
  rewrite IH, afterRegister_formal.
  destruct (registered (flagName g) p); [done|].
  rewrite decide_False; [done|]. intros <-. apply Hn.
  unfold flagNames. apply list_elem_of_fmap. exists g. split; [done|apply elem_of_allFields].
Qed.

Lemma registerFlag_clash cfg g p :
  registered (flagName g) p = false → is_Some (formal p !! flagName g) →
  ∃ p', registerFlag (flagName g) (cfg, g) (flagUsage g) p
        = Panic (FlagRedefined (flagName g)) p'.
Proof.
  intros Hreg [fl Hdef].
  unfold registerFlag, bind, gets, modify, ret, flag_StringVar.
  rewrite Hreg. simpl.
  replace (String.prefix "-" (flagName g)) with false by (by destruct g).
  replace (bool_decide (is_Some (String.index 0 "=" (flagName g)))) with false
    by (by destruct g).
  simpl. rewrite Hdef. eauto.
Qed.

(** One [registerFlag] call of [loadConfig]: it panics on a clash at its own
    name; otherwise it returns and a clash at another name stays. *)
Lemma registerFlag_clash_step cfg g f p :
  registered (flagName f) p = false → is_Some (formal p !! flagName f) →
  (∃ p', registerFlag (flagName g) (cfg, g) (flagUsage g) p
         = Panic (FlagRedefined (flagName g)) p') ∨
  (f ≠ g ∧ ∃ p', registerFlag (flagName g) (cfg, g) (flagUsage g) p = Return None p' ∧
     registered (flagName f) p' = false ∧ is_Some (formal p' !! flagName f)).
Proof.
  intros Hreg Hdef.
  destruct (registered (flagName g) p) eqn:Hg.
  - right. assert (f ≠ g) by (intros ->; congruence). split; [done|].
    eexists. split; [apply registerFlag_afterRegister; by rewrite Hg|].
    rewrite afterRegister_registered, afterRegister_formal, Hg.
    rewrite decide_False by (intros H'; by apply flagName_inj in H'). done.
  - destruct (formal p !! flagName g) as [fl|] eqn:Hfg.
    + left. apply registerFlag_clash; [done | by rewrite Hfg].
    + right. assert (f ≠ g). { intros ->. rewrite Hfg in Hdef. by destruct Hdef. }
      split; [done|].
      eexists. split; [by apply registerFlag_afterRegister|].
      rewrite afterRegister_registered, afterRegister_formal, Hg.
      rewrite !decide_False by (intros H'; by apply flagName_inj in H'). done.
Qed.

(** X4. In a process where one of the four names was defined by other code,
    [loadConfig] panics in [flag.StringVar] whenever the dotenv step lets it
    reach the registration: it neither parses nor validates. *)
Theorem loadConfig_clash_panics cfg path p f :
  (∀ err, files p !! resolvePath path ≠ Some (inl err)) →
  registered (flagName f) p = false →
  is_Some (formal p !! flagName f) →
  ∃ g p', loadConfig cfg path p = Panic (FlagRedefined (flagName g)) p'.
Proof.
  intros Hok Hreg Hdef. rewrite loadConfig_loadable by done.
  rewrite <- (afterLoad_registered (resolvePath path)) in Hreg.
  destruct (afterLoad_flags (resolvePath path) p) as (Hform & _).
  rewrite <- Hform in Hdef. clear Hform.
  generalize dependent (afterLoad (resolvePath path) p). clear p Hok. intros p Hreg Hdef.
  rewrite registerAndParse_unfold. unfold bind at 1.
  destruct (registerFlag_clash_step cfg FCollectorGRPCURL f p Hreg Hdef)
    as [[p' ->]|(Hf1 & p1 & -> & Hreg1 & Hdef1)]; [eauto|].
  unfold bind at 1.
  destruct (registerFlag_clash_step cfg FCollectorHTTPURL f p1 Hreg1 Hdef1)
    as [[p' ->]|(Hf2 & p2 & -> & Hreg2 & Hdef2)]; [eauto|].
  unfold bind at 1.
  destruct (registerFlag_clash_step cfg FServiceName f p2 Hreg2 Hdef2)
    as [[p' ->]|(Hf3 & p3 & -> & Hreg3 & Hdef3)]; [eauto|].
  unfold bind at 1.
  destruct (registerFlag_clash_step cfg FPprofURL f p3 Hreg3 Hdef3)
    as [[p' ->]|(Hf4 & _)]; [eauto|].
  by destruct f.
Qed.

Lemma loadConfig_clash_panics_witness :
  ∃ g p', loadConfig 0%nat "" clashingProcess = Panic (FlagRedefined (flagName g)) p'.
Proof.
  apply (loadConfig_clash_panics 0%nat "" clashingProcess FServiceName).
  - intros err. vm_compute. discriminate.
  - reflexivity.
  - vm_compute. eauto.
Defined.

(** X5. A flag on the command line that is none of the four and is not defined
    otherwise ends the process in [flag.Parse], before validation: with
    status 0 for [-h] and [-help], with status 2 for any other name. *)
Theorem loadConfig_undefined_flag_exits cfg path p a rest name value :
  (∀ err, files p !! resolvePath path ≠ Some (inl err)) →
  noClash p →
  osArgs p = a :: rest →
  scanArg a = TFlag name value →
  name ∉ flagNames → formal p !! name = None →
  ∃ p', loadConfig cfg path p =
          Exit (if bool_decide (name = "help" ∨ name = "h") then 0 else 2) p'.
Proof.
  intros Hok Hc Hargs Hscan Hn Hundef. rewrite loadConfig_loadable by done.
  destruct (afterLoad_flags (resolvePath path) p) as (Hform & _ & Ha & _).
  rewrite registerAndParse_noClash by (by apply afterLoad_noClash).
  unfold bind, flag_Parse.
  destruct (afterRegisterAll_environ cfg allFields (afterLoad (resolvePath path) p))
    as (_ & _ & ->).
  rewrite Ha, Hargs. cbn [parseArgs]. rewrite Hscan, formal_emit.
  rewrite afterRegisterAll_formal_other, Hform, Hundef by done.
  case_bool_decide; eauto.
Qed.

Lemma loadConfig_undefined_flag_exits_witness :
  ∃ p', loadConfig 0%nat "" (freshProcess demoEnv ∅ ["--help"] ∅) = Exit 0 p'.
Proof.
  apply (loadConfig_undefined_flag_exits 0%nat "" (freshProcess demoEnv ∅ ["--help"] ∅)
           "--help" [] "help" None).
  - intros err. vm_compute. discriminate.
  - intros f _. apply lookup_empty.
  - reflexivity.
  - reflexivity.
  - vm_compute. intros H. repeat (apply elem_of_cons in H as [H|H]; [discriminate H|]).
    by apply elem_of_nil in H.
  - apply lookup_empty.
Defined.

(** X6. With no flag on the command line (no argument, or a first argument that
    is not a flag), [loadConfig] returns the verdict of [validate] and every
    field holds its resolved environment value; flags after a first
    positional argument are not read. *)
Theorem loadConfig_no_flags cfg path p :
  (∀ err, files p !! resolvePath path ≠ Some (inl err)) →
  noClash p →
  noFlags (osArgs p) →
  ∃ p', loadConfig cfg path p = Return (validate (deref cfg p')) p' ∧
    ∀ f, getField f (deref cfg p') = resolved cfg f (afterLoad (resolvePath path) p).
Proof.
  intros Hok Hc Hnf. rewrite loadConfig_loadable by done.
  destruct (afterLoad_flags (resolvePath path) p) as (_ & _ & Ha & _).
  rewrite registerAndParse_noClash by (by apply afterLoad_noClash).
  unfold bind, flag_Parse, gets.
  destruct (afterRegisterAll_environ cfg allFields (afterLoad (resolvePath path) p))
    as (_ & _ & ->).
  rewrite Ha.
  assert (Hparse : ∀ q, parseArgs (osArgs p) q = Return () q).
  { intros q. destruct (osArgs p) as [|a rest]; [done|]. simpl in *.
    by destruct Hnf as [-> | ->]. }
  rewrite Hparse. eexists. split; [reflexivity|].
  intros f. deref_norm.
  apply afterRegisterAll_getField; [apply allFields_NoDup | apply elem_of_allFields].
Qed.

Lemma loadConfig_no_flags_witness :
  ∃ p', loadConfig 0%nat "" (freshProcess demoEnv ∅ ["run"; "-servicename=late"] ∅)
          = Return (validate (deref 0%nat p')) p' ∧
    getField FServiceName (deref 0%nat p') = "ogen".
Proof.
  destruct (loadConfig_no_flags 0%nat ""
              (freshProcess demoEnv ∅ ["run"; "-servicename=late"] ∅))
    as (p' & H & Hf).
  - intros err. vm_compute. discriminate.
  - intros f _. apply lookup_empty.
  - left. reflexivity.
  - exists p'. split; [exact H|]. rewrite Hf. vm_compute. reflexivity.
Defined.

(* ===================================================================== *)
(** ** loadConfig: the sources of a value *)
(* ===================================================================== *)

(** X7. A key that is not in the environment takes the value of the dotenv
    file: the variable is set to it, and it becomes the field when no flag
    is passed. *)
Theorem loadConfig_dotenv_default cfg path p e p' f m vf :
  boundTo cfg p →
  files p !! resolvePath path = Some (inr m) →
  environ p !! flagName f = None →
  m !! flagName f = Some vf →
  loadConfig cfg path p = Return e p' →
  Getenv (flagName f) p' = vf ∧
  (lastPassed (flagName f) (passedFlags (osArgs p)) = None →
   vf ≠ "" ∨ registered (flagName f) p = false →
   getField f (deref cfg p') = vf).
Proof.
  intros Hb Hfile Henv Hm H.
  assert (Hok : ∀ err, files p !! resolvePath path ≠ Some (inl err)) by (by rewrite Hfile).
  destruct (loadConfig_merged cfg path p e p' Hok H Hb) as [Hmerged He].
  assert (Hget : Getenv (flagName f) (afterLoad (resolvePath path) p) = vf).
  { unfold Getenv. by rewrite (afterLoad_environ_None _ _ _ m), Hm. }
  split; [unfold Getenv in *; by rewrite He|].
  intros Hno Hcase. rewrite Hmerged. unfold merged, resolved.
  destruct (afterLoad_flags (resolvePath path) p) as (_ & _ & -> & _).
  rewrite Hno, Hget, afterLoad_registered. simpl.
  destruct Hcase as [Hne| ->]; [|done].
  by rewrite (bool_decide_eq_false_2 _ Hne), andb_false_r.
Qed.

Lemma loadConfig_dotenv_default_witness :
  ∃ e p', loadConfig 0%nat "" dotenvOnly = Return e p' ∧
    getField FPprofURL (deref 0%nat p') = "localhost:1777".
Proof.
  destruct (loadConfig 0%nat "" dotenvOnly) as [e p'| |] eqn:E;
    [|vm_compute in E; discriminate..].
  exists e, p'. split; [reflexivity|].
  destruct (loadConfig_dotenv_default 0%nat "" dotenvOnly e p' FPprofURL
              demoEnv "localhost:1777") as [_ Hf];
    [apply freshProcess_boundTo | vm_compute; reflexivity | vm_compute; reflexivity
    | vm_compute; reflexivity | exact E |].
  apply Hf; [vm_compute; reflexivity | left; discriminate].
Defined.

(** X8. On the first call of a process nothing of what the Config held
    survives in the four fields: each is the passed flag or else the
    environment value, empty when the variable is not set. *)
Theorem loadConfig_first_call_overwrites cfg path p e p' :
  boundTo cfg p →
  (∀ f, registered (flagName f) p = false) →
  (∀ err, files p !! resolvePath path ≠ Some (inl err)) →
  loadConfig cfg path p = Return e p' →
  ∀ f, getField f (deref cfg p') =
         default (Getenv (flagName f) p')
                 (lastPassed (flagName f) (passedFlags (osArgs p))).
Proof.
  intros Hb Hfresh Hok H f.
  destruct (loadConfig_merged cfg path p e p' Hok H Hb) as [Hmerged He].
  rewrite Hmerged. unfold merged, resolved.
  destruct (afterLoad_flags (resolvePath path) p) as (_ & _ & -> & _).
  rewrite afterLoad_registered, Hfresh. simpl. unfold Getenv. by rewrite He.
Qed.

Lemma loadConfig_first_call_overwrites_witness :
  ∃ e p', loadConfig 0%nat "" (freshProcess ∅ ∅ [] {[ 0%nat := demoConfig ]}) = Return e p' ∧
    getField FServiceName (deref 0%nat p') = "".
Proof.
  destruct (loadConfig 0%nat "" (freshProcess ∅ ∅ [] {[ 0%nat := demoConfig ]}))
    as [e p'| |] eqn:E; [|vm_compute in E; discriminate..].
  exists e, p'. split; [reflexivity|].
  assert (Hok : ∀ err, files (freshProcess ∅ ∅ [] {[ 0%nat := demoConfig ]})
                         !! resolvePath "" ≠ Some (inl err))
    by (intros err; vm_compute; discriminate).
  rewrite (loadConfig_first_call_overwrites 0%nat ""
             (freshProcess ∅ ∅ [] {[ 0%nat := demoConfig ]}) e p'
             (freshProcess_boundTo _ _ _ _ _) (fun f => eq_refl) Hok E FServiceName).
  vm_compute in E. injection E as _ <-. vm_compute. reflexivity.
Defined.

Lemma Config_ext c c' :
  (∀ f, getField f c = getField f c') → ports c = ports c' → c = c'.
Proof.
  intros Hf Hp. destruct c, c'. unfold ports in Hp. simpl in Hp.
  pose proof (Hf FCollectorGRPCURL). pose proof (Hf FCollectorHTTPURL).
  pose proof (Hf FServiceName). pose proof (Hf FPprofURL). simpl in *. congruence.
Qed.

Lemma afterLoad_twice path p m :
  files p !! path = Some (inr m) → environ (afterLoad path p) ∪ m = environ (afterLoad path p).
Proof.
  intros Hf. unfold afterLoad. rewrite Hf. simpl.
  by rewrite <- (assoc_L (∪)), (idemp_L (∪)).
Qed.

(** X9. Loading twice is loading once: after a returning call, a second call on
    the same Config and path returns the same error and leaves the Config,
    the environment and the flag tables as the first call left them. *)
Theorem loadConfig_idempotent cfg path p e p1 :
  boundTo cfg p →
  (∀ err, files p !! resolvePath path ≠ Some (inl err)) →
  loadConfig cfg path p = Return e p1 →
  ∃ p2, loadConfig cfg path p1 = Return e p2 ∧
    deref cfg p2 = deref cfg p1 ∧
    environ p2 = environ p1 ∧
    formal p2 = formal p1 ∧ registeredFlags p2 = registeredFlags p1.
Proof.
  intros Hb Hok H1.
  destruct (loadConfig_merged cfg path p e p1 Hok H1 Hb) as [Hm1 He1].
  rewrite loadConfig_loadable in H1 by done.
  set (rp := resolvePath path) in *. set (pa := afterLoad rp p) in *.
  assert (Hba : boundTo cfg pa) by (by apply afterLoad_boundTo).
  destruct (registerAndParse_post cfg pa e p1 Hba H1)
    as (Hb1 & Hreg1 & Hform1 & _ & Hargs1 & Hfiles1 & _).
  destruct (afterLoad_flags rp p) as (_ & _ & Hargsa & Hfilesa). fold pa in Hargsa, Hfilesa.
  assert (Hok1 : ∀ err, files p1 !! rp ≠ Some (inl err)).
  { intros err. rewrite Hfiles1, Hfilesa. apply Hok. }
  rewrite loadConfig_loadable by done. fold rp. set (qa := afterLoad rp p1).
  destruct (afterLoad_flags rp p1) as (Hfq & Hrq & Haq & _). fold qa in Hfq, Hrq, Haq.
  assert (Hbq : boundTo cfg qa) by (by apply afterLoad_boundTo).
  assert (Hregq : ∀ f, f ∈ allFields → registered (flagName f) qa = true).
  { intros f _. unfold registered. rewrite Hrq. apply Hreg1. }
  destruct (afterRegisterAll_registered_same cfg allFields qa Hregq) as (Hf4 & Hr4 & _).
  destruct (registerAndParse_again cfg pa qa Hba Hbq) as (e2 & p2 & H2).
  { congruence. }
  { congruence. }
  { by rewrite H1. }
  destruct (registerAndParse_Return cfg qa e2 p2 Hbq H2) as (Hv2 & Hm2 & _).
  destruct (registerAndParse_post cfg qa e2 p2 Hbq H2) as (_ & _ & Hform2 & Hregs2 & _).
  assert (Henvq : environ qa = environ p1).
  { unfold qa, afterLoad. rewrite Hfiles1, Hfilesa.
    destruct (files p !! rp) as [[err|m]|] eqn:E; try done.
    simpl. rewrite He1. by apply afterLoad_twice. }
  assert (Henv2 : environ p2 = environ p1).
  { pose proof (registerAndParse_envPorts cfg qa) as [He _].
    rewrite H2 in He. simpl in He. congruence. }
  assert (Hfields : ∀ f, getField f (deref cfg p2) = getField f (deref cfg p1)).
  { intros f. rewrite Hm2, Hm1. unfold merged. rewrite Haq, Hargs1.
    destruct (lastPassed (flagName f) (passedFlags (osArgs pa))) as [v|] eqn:Hlp; [done|].
    simpl. unfold resolved at 1. rewrite (Hregq f (elem_of_allFields f)). simpl.
    assert (HG : Getenv (flagName f) qa = Getenv (flagName f) pa)
      by (unfold Getenv; by rewrite Henvq, He1).
    rewrite !HG. case_bool_decide as Hdv.
    - unfold qa. rewrite afterLoad_deref, Hm1. unfold merged. by rewrite Hlp.
    - unfold resolved. by rewrite (bool_decide_eq_false_2 _ Hdv), andb_false_r. }
  assert (Hderef : deref cfg p2 = deref cfg p1).
  { apply Config_ext; [done|].
    pose proof (registerAndParse_envPorts cfg qa) as [_ Hp].
    rewrite H2 in Hp. simpl in Hp. rewrite Hp. unfold qa. by rewrite afterLoad_deref. }
  assert (e2 = e) as ->.
  { rewrite Hv2, Hderef. symmetry. by eapply registerAndParse_validate. }
  exists p2. repeat split; [done | done | done | congruence | congruence].
Qed.

Lemma loadConfig_idempotent_witness :
  ∃ e p1 p2, loadConfig 0%nat "" threeSources = Return e p1 ∧
    loadConfig 0%nat "" p1 = Return e p2 ∧ deref 0%nat p2 = deref 0%nat p1.
Proof.
  destruct (loadConfig 0%nat "" threeSources) as [e p1| |] eqn:E;
    [|vm_compute in E; discriminate..].
  assert (Hok : ∀ err, files threeSources !! resolvePath "" ≠ Some (inl err))
    by (intros err; vm_compute; discriminate).
  destruct (loadConfig_idempotent 0%nat "" threeSources e p1
              (freshProcess_boundTo _ _ _ _ _) Hok E)
    as (p2 & H2 & Hd & _).
  exists e, p1, p2. repeat split; [exact H2 | exact Hd].
Defined.

(* ===================================================================== *)
(** ** loadConfig: a second Config *)
(* ===================================================================== *)

Lemma loadConfig_post cfg path p e p' :
  boundTo cfg p →
  (∀ err, files p !! resolvePath path ≠ Some (inl err)) →
  loadConfig cfg path p = Return e p' →
  boundTo cfg p' ∧ ∀ f, registered (flagName f) p' = true.
Proof.
  intros Hb Hok H. rewrite loadConfig_loadable in H by done.
  destruct (registerAndParse_post cfg _ e p' (afterLoad_boundTo _ _ _ Hb) H)
    as (Hb' & Hreg & _). done.
Qed.

(** Flags bound to one Config never write into another object. *)
Lemma foldl_setFlag_deref_other cfg0 l toks : ∀ p,
  boundTo cfg0 p → l ≠ cfg0 → deref l (foldl setFlag p toks) = deref l p.
Proof.
  induction toks as [|[n v] toks IH]; intros p Hb Hl; simpl; [done|].
  assert (Hform : formal (setFlag p (n, v)) = formal p).
  { unfold setFlag. by destruct (formal p !! (n, v).1). }
  assert (Hreg : registeredFlags (setFlag p (n, v)) = registeredFlags p).
  { unfold setFlag. by destruct (formal p !! (n, v).1). }
  rewrite IH; [|by eapply boundTo_ext|done].
  unfold setFlag. simpl. destruct (formal p !! n) as [fl|] eqn:E; [|done].
  destruct (Hb n fl E) as (_ & g & _ & ->). by apply deref_store_ne.
Qed.

(** X10. The flags stay with the Config of the first call. When the four flags
    are registered against [cfg0], a call on another Config fills that one
    from the environment alone, while the values passed on the command line
    are written into [cfg0] again. *)
Theorem loadConfig_other_config cfg0 cfg path p e p' :
  boundTo cfg0 p →
  (∀ f, registered (flagName f) p = true) →
  cfg ≠ cfg0 →
  (∀ err, files p !! resolvePath path ≠ Some (inl err)) →
  loadConfig cfg path p = Return e p' →
  ∀ f,
    getField f (deref cfg p') = resolved cfg f (afterLoad (resolvePath path) p) ∧
    getField f (deref cfg0 p') =
      default (getField f (deref cfg0 p))
              (lastPassed (flagName f) (passedFlags (osArgs p))).
Proof.
  intros Hb Hreg Hne Hok H f. rewrite loadConfig_loadable in H by done.
  set (pa := afterLoad (resolvePath path) p) in *.
  assert (Hba : boundTo cfg0 pa) by (by apply afterLoad_boundTo).
  assert (Hrega : ∀ g, g ∈ allFields → registered (flagName g) pa = true).
  { intros g _. unfold pa. by rewrite afterLoad_registered. }
  destruct (afterLoad_flags (resolvePath path) p) as (_ & _ & Hargs & _). fold pa in Hargs.
  rewrite registerAndParse_noClash in H by (by apply (boundTo_noClash cfg0)).
  unfold bind, flag_Parse, gets in H.
  destruct (afterRegisterAll_environ cfg allFields pa) as (_ & _ & Ha4).
  destruct (afterRegisterAll_registered_same cfg allFields pa Hrega) as (Hf4 & Hr4 & _).
  assert (Hb4 : boundTo cfg0 (emit EvParse (afterRegisterAll cfg allFields pa))).
  { by apply (boundTo_ext cfg0 pa). }
  rewrite Ha4, Hargs in H.
  destruct (parseArgs _ _) as [u q| |] eqn:E; [|discriminate..].
  injection H as _ <-. apply parseArgs_Return in E as [-> Hdef]. split.
  - rewrite (foldl_setFlag_deref_other cfg0) by done. deref_norm.
    apply afterRegisterAll_getField; [apply allFields_NoDup | apply elem_of_allFields].
  - rewrite (foldl_setFlag_getField cfg0 f) by done. f_equal. deref_norm.
    rewrite afterRegisterAll_deref_other by done. unfold pa. by rewrite afterLoad_deref.
Qed.

Lemma loadConfig_other_config_witness :
  ∃ e p', loadConfig 1%nat "" otherConfigLoaded = Return e p' ∧
    getField FServiceName (deref 1%nat p') = "ogen" ∧
    getField FServiceName (deref 0%nat p') = "from-flag".
Proof.
  assert (Hfirst : loadConfig 0%nat "" (freshProcess demoEnv ∅ ["-servicename=from-flag"] ∅)
                   = Return None otherConfigLoaded) by (vm_compute; reflexivity).
  assert (Hok0 : ∀ err, files (freshProcess demoEnv ∅ ["-servicename=from-flag"] ∅)
                          !! resolvePath "" ≠ Some (inl err))
    by (intros err; vm_compute; discriminate).
  destruct (loadConfig_post 0%nat "" _ None otherConfigLoaded
              (freshProcess_boundTo _ _ _ _ _) Hok0 Hfirst) as [Hb Hreg].
  destruct (loadConfig 1%nat "" otherConfigLoaded) as [e p'| |] eqn:E;
    [|vm_compute in E; discriminate..].
  assert (Hok : ∀ err, files otherConfigLoaded !! resolvePath "" ≠ Some (inl err))
    by (intros err; vm_compute; discriminate).
  exists e, p'. split; [reflexivity|].
  destruct (loadConfig_other_config 0%nat 1%nat "" otherConfigLoaded e p'
              Hb Hreg ltac:(discriminate) Hok E FServiceName) as [H1 H0].
  split; [rewrite H1 | rewrite H0]; vm_compute; reflexivity.
Defined.

(* ===================================================================== *)
(** ** rollDice for every int64 *)
(* ===================================================================== *)

Lemma wrap64_small z : - 2 ^ 63 ≤ z < 2 ^ 63 → wrap64 z = z.
Proof. intros H. unfold wrap64. rewrite Z.mod_small by lia. lia. Qed.

(** X12. The [switch] of [rollDice] has no default but misses no roll: for every
    value, [rollDice] starts the span, prints the roll, logs exactly one
    record, sleeps exactly once and ends the span. The record says zero for
    0, one for 1, even for the other even rolls and odd for the other odd
    ones, negative rolls included. *)
Theorem rollDice_switch_exhaustive (roll : Z) :
  ∃ msg d,
    rollDice roll = [SpanStart "dice_roll"; Print roll; LogInfo msg roll; Sleep d; SpanEnd] ∧
    (msg = "Rolled zero" ↔ roll = 0) ∧
    (msg = "Rolled one" ↔ roll = 1) ∧
    (msg = "Rolled even" ↔ roll ≠ 0 ∧ Z.rem roll 2 = 0) ∧
    (msg = "Rolled odd" ↔ roll ≠ 1 ∧ Z.rem roll 2 ≠ 0) ∧
    (roll = 0 ∨ roll = 1 → d = Second) ∧
    (roll ≠ 0 → roll ≠ 1 → d = wrap64 (Second * Z.quot roll 2)).
Proof.
  unfold rollDice, rollCase.
  destruct (Z.eqb_spec roll 0) as [->|H0].
  { exists "Rolled zero", Second. repeat split; try done; intros; first [lia | tauto | congruence]. }
  destruct (Z.eqb_spec (Z.rem roll 2) 0) as [He|He].
  { exists "Rolled even", (wrap64 (Second * Z.quot roll 2)).
    assert (roll ≠ 1) by (intros ->; discriminate He).
    repeat split; try done; intros; first [lia | tauto | congruence]. }
  destruct (Z.eqb_spec roll 1) as [->|H1].
  { exists "Rolled one", Second. repeat split; try done; intros; first [lia | tauto | congruence]. }
  exists "Rolled odd", (wrap64 (Second * Z.quot roll 2)).
  repeat split; try done; intros; first [lia | tauto | congruence].
Qed.

(** X13. Up to the roll 18446744073 the duration does not overflow: the delay is
    one second for 0 and 1 and half the roll, rounded down, in seconds for
    the rest; it is at least one second, and at most four seconds for the
    rolls the generator makes. *)
Theorem delay_bounds (roll : Z) :
  0 ≤ roll ≤ 18446744073 →
  delay roll = Second * Z.max 1 (roll `div` 2) ∧
  Second ≤ delay roll ∧
  (roll ≤ 9 → delay roll ≤ 4 * Second).
Proof.
  intros Hr.
  assert (Hd : delay roll = Second * Z.max 1 (roll `div` 2)).
  { unfold delay, rollCase.
    destruct (Z.eqb_spec roll 0) as [->|H0]; [reflexivity|].
    assert (Hq : roll ≠ 1 → wrap64 (Second * Z.quot roll 2) = Second * Z.max 1 (roll `div` 2)).
    { intros H1. rewrite Z.quot_div_nonneg by lia.
      assert (1 ≤ roll `div` 2) by (apply Z.div_le_lower_bound; lia).
      assert (roll `div` 2 < 9223372037) by (apply Z.div_lt_upper_bound; lia).
      rewrite Z.max_r by lia. apply wrap64_small. unfold Second. lia. }
    destruct (Z.eqb_spec (Z.rem roll 2) 0) as [He|He].
    - apply Hq. intros ->. discriminate He.
    - destruct (Z.eqb_spec roll 1) as [->|H1]; [reflexivity|]. simpl. by apply Hq. }
  rewrite Hd. unfold Second. split; [done|]. split; [lia|].
  intros H9. assert (roll `div` 2 < 5) by (apply Z.div_lt_upper_bound; lia). lia.
Qed.

Lemma delay_bounds_witness :
  0 ≤ 9 ≤ 18446744073 ∧ delay 9 = 4 * Second.
Proof.
  split; [lia|].
  destruct (delay_bounds 9 ltac:(lia)) as (-> & _). reflexivity.
Defined.

(** Past that bound the multiplication wraps around. *)
Example delay_overflow : delay 18446744074 < 0.
Proof. reflexivity. Qed.

(* ===================================================================== *)
(** ** generateData: the setup *)
(* ===================================================================== *)

(** The setup loop stops at the first index whose counter the meter
    refuses. *)
Lemma rollCounters_first_failure meter idxs : ∀ m idx,
  rollCounters meter idxs m = inl idx →
  ∃ k, idxs !! k = Some idx ∧
       meter (rollCounterName idx) (rollCounterDescription idx) = None ∧
       ∀ k' j, (k' < k)%nat → idxs !! k' = Some j →
               is_Some (meter (rollCounterName j) (rollCounterDescription j)).
Proof.
  induction idxs as [|i idxs IH]; intros m idx H; simpl in H; [done|].
  destruct (meter (rollCounterName i) (rollCounterDescription i)) as [c|] eqn:Hm.
  - destruct (IH _ _ H) as (k & Hk & Hnone & Hbefore).
    exists (S k). split; [done|]. split; [done|].
    intros [|k'] j Hlt Hj; simpl in Hj.
    + injection Hj as <-. by rewrite Hm.
    + apply (Hbefore k'); [lia | done].
  - injection H as <-. exists 0%nat. split; [done|]. split; [done|]. intros; lia.
Qed.

(** X14. What the setup of [generateData] yields, in full. It fails exactly on
    the first instrument the meter refuses, and the error it logs names that
    one: the counter [dice-rolls], or else the least number from 0 to 10
    whose counter cannot be made. Otherwise it holds the counter of
    [dice-rolls] and, for each number from 0 to 10, the counter made for it. *)
Theorem generateData_setup_result meter :
  match generateData_setup meter with
  | inl ev =>
      (meter "dice-rolls" "Counts the total number of dice rolls" = None ∧
       ev = LogError "Creating counter" "dice-rolls" None) ∨
      (∃ idx, 0 ≤ idx ≤ 10 ∧
         ev = LogError "Creating roll counter" "roll" (Some idx) ∧
         is_Some (meter "dice-rolls" "Counts the total number of dice rolls") ∧
         meter (rollCounterName idx) (rollCounterDescription idx) = None ∧
         ∀ j, 0 ≤ j < idx →
              is_Some (meter (rollCounterName j) (rollCounterDescription j)))
  | inr (diceRolls, rollFreq) =>
      meter "dice-rolls" "Counts the total number of dice rolls" = Some diceRolls ∧
      ∀ idx, 0 ≤ idx ≤ 10 →
             is_Some (rollFreq !! idx) ∧
             rollFreq !! idx = meter (rollCounterName idx) (rollCounterDescription idx)
  end.
Proof.
  destruct (generateData_setup meter) as [ev|[dr rf]] eqn:Hsetup.
  - unfold generateData_setup in Hsetup.
    destruct (meter "dice-rolls" _) as [d|] eqn:Hd; [|injection Hsetup as <-; by left].
    destruct (rollCounters meter (seqZ 0 11) ∅) as [idx|rf] eqn:Hrc; [|done].
    injection Hsetup as <-. right.
    destruct (rollCounters_first_failure _ _ _ _ Hrc) as (k & Hk & Hnone & Hbefore).
    apply lookup_seqZ in Hk as [-> Hklt]. exists (0 + Z.of_nat k).
    split; [lia|]. split; [done|]. split; [done|]. split; [done|].
    intros j Hj. apply (Hbefore (Z.to_nat j)); [lia|].
    apply lookup_seqZ. lia.
  - pose proof (generateData_setup_rollFreq meter dr rf Hsetup) as Hrf.
    unfold generateData_setup in Hsetup.
    destruct (meter "dice-rolls" _) as [d|] eqn:Hd; [|done].
    destruct (rollCounters meter (seqZ 0 11) ∅); [done|].
    injection Hsetup as -> _. split; [done|].
    intros idx Hidx. destruct (Hrf idx) as [Hs He]. split; [by apply Hs | by apply He].
Qed.

Example generateData_setup_failingMeter :
  generateData_setup failingMeter = inl (LogError "Creating roll counter" "roll" (Some 7)).
Proof. vm_compute. reflexivity. Qed.

(* ===================================================================== *)
(** ** What one step adds to the log *)
(* ===================================================================== *)

Lemma cancel_log s :
  (cancelled s = true ∧ cancel s = s) ∨
  (cancelled s = false ∧ cancelled (cancel s) = true ∧
   log (cancel s) = (log s ++ [CancelFired])%list).
Proof. unfold cancel. destruct (cancelled s); [by left | by right]. Qed.

(** Every step appends to the log: nothing, the cancellation, the teardown,
    one error record, or the events of one roll made while the context was
    not cancelled. *)
Lemma step_log meter l s s' :
  step meter l s = Some s' →
  ∃ evs, log s' = (log s ++ evs)%list ∧
    ((evs = [] ∧ cancelled s' = cancelled s) ∨
     (evs = [CancelFired] ∧ cancelled s = false ∧ cancelled s' = true) ∨
     (evs = teardown ∧ cancelled s = true ∧ cancelled s' = true) ∨
     ((∃ msg name number, evs = [LogError msg name number]) ∧ cancelled s' = cancelled s) ∨
     (∃ rnd diceRolls rollFreq,
        emitter s = ELoop diceRolls rollFreq ∧ cancelled s = false ∧ cancelled s' = false ∧
        generateData_roll rnd diceRolls rollFreq = Some evs)).
Proof.
  intros Hstep. unfold step in Hstep. destruct (exited s); [done|].
  assert (Hcancel : ∀ t t', log t = log s → cancelled t = cancelled s →
            log t' = log (cancel t) → cancelled t' = cancelled (cancel t) →
            ∃ evs, log t' = (log s ++ evs)%list ∧
              ((evs = [] ∧ cancelled t' = cancelled s) ∨
               (evs = [CancelFired] ∧ cancelled s = false ∧ cancelled t' = true) ∨
               (evs = teardown ∧ cancelled s = true ∧ cancelled t' = true) ∨
               ((∃ msg name number, evs = [LogError msg name number]) ∧
                cancelled t' = cancelled s) ∨
               (∃ rnd diceRolls rollFreq,
                  emitter s = ELoop diceRolls rollFreq ∧ cancelled s = false ∧
                  cancelled t' = false ∧
                  generateData_roll rnd diceRolls rollFreq = Some evs))).
  { intros t t' Hl Hc Hl' Hc'. destruct (cancel_log t) as [[Ht Heq]|(Ht & Hct & Hlt)].
    - exists []. rewrite Hl', Hc', Heq, Hl, Hc, app_nil_r. split; [done|]. by left.
    - exists [CancelFired]. rewrite Hl', Hc', Hlt, Hct, Hl, <- Hc. split; [done|].
      right. by left. }
  destruct l; simpl in Hstep.
  - injection Hstep as <-. by apply (Hcancel s).
  - injection Hstep as <-. exists []. rewrite app_nil_r. split; [by case_decide|].
    left. split; [done | by case_decide].
  - unfold handleTermination_step in Hstep.
    destruct (listener s); [|done]. destruct (cancelled s) eqn:Hc; [|done].
    injection Hstep as <-. exists teardown. split; [done|]. right. right. by left.
  - unfold handleTermination_step in Hstep.
    destruct (listener s); [|done]. destruct (interrupt s) as [|n]; [done|].
    injection Hstep as <-. by apply (Hcancel (set_interrupt n s)).
  - unfold generateData_step in Hstep. destruct (emitter s); try done.
    destruct (generateData_setup meter) as [ev|[dr rf]] eqn:Hsetup; injection Hstep as <-.
    + exists [ev]. split; [done|]. right. right. right. left. split; [|done].
      unfold generateData_setup in Hsetup.
      destruct (meter _ _); [|injection Hsetup as <-; eauto].
      destruct (rollCounters _ _ _); [|done]. injection Hsetup as <-. eauto.
    + exists []. rewrite app_nil_r. split; [done|]. by left.
  - unfold generateData_step in Hstep. destruct (emitter s) as [|dr rf| |] eqn:He; try done.
    destruct (cancelled s) eqn:Hc.
    + injection Hstep as <-. exists []. simpl. rewrite app_nil_r. split; [done|]. by left.
    + destruct (generateData_roll rnd dr rf) as [evs|] eqn:Hroll; injection Hstep as <-.
      * exists evs. split; [done|]. do 4 right. by exists rnd, dr, rf.
      * exists []. simpl. rewrite app_nil_r. split; [done|]. by left.
  - unfold servePprof_step in Hstep. destruct (server s); [|done].
    destruct (serverClosed s); [done|]. injection Hstep as <-.
    eexists. split; [reflexivity|]. right. right. right. left. split; [eauto|done].
  - unfold servePprof_step in Hstep. destruct (server s); [|done].
    destruct (serverClosed s); [|done]. injection Hstep as <-.
    exists []. simpl. rewrite app_nil_r. split; [done|]. by left.
  - case_decide; [|done]. injection Hstep as <-. by apply (Hcancel s).
Qed.

Lemma run_app meter ls1 ls2 s :
  run meter (ls1 ++ ls2) s =
    match run meter ls1 s with Some s1 => run meter ls2 s1 | None => None end.
Proof.
  revert s. induction ls1 as [|l ls1 IH]; intros s; simpl; [done|].
  destruct (step meter l s); [apply IH | done].
Qed.

Lemma reachable_run meter ls s s' :
  reachable meter s → run meter ls s = Some s' → reachable meter s'.
Proof.
  intros [ls0 H0] H. exists (ls0 ++ ls)%list. by rewrite run_app, H0.
Qed.

(* ===================================================================== *)
(** ** The context is cancelled once *)
(* ===================================================================== *)

Lemma rollCase_total roll : ∃ msg d, rollCase roll = Some (msg, d).
Proof.
  unfold rollCase. destruct (Z.eqb roll 0); [eauto|].
  destruct (Z.eqb (Z.rem roll 2) 0); [eauto|].
  destruct (Z.eqb roll 1); eauto.
Qed.

Lemma generateData_roll_events rnd diceRolls rollFreq evs :
  generateData_roll rnd diceRolls rollFreq = Some evs →
  ∃ msg d counter,
    rollFreq !! Intn rnd 10 = Some counter ∧
    evs = [SpanStart "dice_roll"; Print (Intn rnd 10); LogInfo msg (Intn rnd 10);
           Sleep d; SpanEnd; CounterAdd diceRolls 1; CounterAdd counter 1].
Proof.
  unfold generateData_roll. destruct (rollFreq !! Intn rnd 10) as [c|]; [|done].
  intros [= <-]. unfold rollDice.
  destruct (rollCase_total (Intn rnd 10)) as (msg & d & ->).
  by exists msg, d, c.
Qed.

(** X15. However often [cancel] is called (by the listener on an interrupt, by a
    caller from outside, by the deferred call of [main]), the context is
    cancelled at most once, and it never goes back: the log holds one
    cancellation exactly when the context is cancelled, none otherwise. *)
Theorem context_cancelled_once meter s :
  reachable meter s →
  cancels (log s) = (if cancelled s then 1 else 0)%nat ∧
  ∀ ls s', cancelled s = true → run meter ls s = Some s' → cancelled s' = true.
Proof.
  intros [ls0 Hrun]. split.
  - apply (run_invariant (fun t => cancels (log t) = (if cancelled t then 1 else 0)%nat)
             meter) with (ls := ls0) (s := init); [|reflexivity|exact Hrun].
    intros l t t' Ht Hstep. destruct (step_log meter l t t' Hstep) as (evs & -> & Hcase).
    unfold cancels in *. rewrite filter_app, length_app, Ht.
    destruct Hcase as [[-> ->]|[(-> & -> & ->)|[(-> & -> & ->)|[[(m & n & k & ->) ->]|Hroll]]]];
      try (simpl; destruct (cancelled t); reflexivity).
    destruct Hroll as (rnd & dr & rf & _ & -> & -> & Hroll).
    destruct (generateData_roll_events _ _ _ _ Hroll) as (msg & d & c & _ & ->). reflexivity.
  - intros ls s' Hc.
    apply (run_invariant (fun t => cancelled t = true) meter); [|exact Hc].
    intros l t t' Ht Hstep. destruct (step_log meter l t t' Hstep) as (evs & _ & Hcase).
    destruct Hcase as [[_ ->]|[(_ & _ & ->)|[(_ & _ & ->)|[[_ ->]|Hroll]]]]; try done.
    destruct Hroll as (rnd & dr & rf & _ & Hf & _). congruence.
Qed.

Lemma context_cancelled_once_witness :
  reachable goodMeter (stateAfter goodMeter raceSchedule) ∧
  cancels (log (stateAfter goodMeter raceSchedule)) = 1%nat.
Proof.
  assert (Hr : reachable goodMeter (stateAfter goodMeter raceSchedule)).
  { apply reachable_stateAfter. vm_compute. eauto. }
  split; [exact Hr|].
  destruct (context_cancelled_once goodMeter _ Hr) as [-> _]. reflexivity.
Defined.

(* ===================================================================== *)
(** ** generateData: the loop *)
(* ===================================================================== *)

Lemma filter_none {A} (P : A → Prop) `{!∀ x, Decision (P x)} (l : list A) :
  (∀ x, x ∈ l → ¬ P x) → filter P l = [].
Proof.
  induction l as [|x l IH]; intros Hl; [done|].
  rewrite filter_cons_False by (apply Hl; left).
  apply IH. intros y Hy. apply Hl. by right.
Qed.

(** Filtering a list that is written out, element by element. *)
Ltac filter_step :=
  repeat first
    [ rewrite filter_cons_True by (done || congruence)
    | rewrite filter_cons_False by (done || congruence)
    | rewrite filter_nil ].

Lemma count_app {A} (P : A → Prop) `{!∀ x, Decision (P x)} (l1 l2 : list A) :
  length (filter P (l1 ++ l2)%list) = (length (filter P l1) + length (filter P l2))%nat.
Proof. by rewrite filter_app, length_app. Qed.

(** X17. The counters count the rolls. When the meter hands out a counter for
    [dice-rolls] that differs from the counters of the numbers, and different
    counters for different numbers, then in every execution the additions to
    [dice-rolls] are as many as the rolls printed, and the additions to the
    counter of a number are as many as the rolls of that number. *)
Theorem generateData_counts meter diceRolls rollFreq s :
  generateData_setup meter = inr (diceRolls, rollFreq) →
  (∀ idx c, rollFreq !! idx = Some c → c ≠ diceRolls) →
  (∀ i j c, rollFreq !! i = Some c → rollFreq !! j = Some c → i = j) →
  reachable meter s →
  addsTo diceRolls (log s) = prints (log s) ∧
  ∀ r c, rollFreq !! r = Some c → addsTo c (log s) = printsOf r (log s).
Proof.
  intros Hsetup Hdr Hinj [ls Hrun].
  assert (H : emitterInv meter s ∧
              addsTo diceRolls (log s) = prints (log s) ∧
              ∀ r c, rollFreq !! r = Some c → addsTo c (log s) = printsOf r (log s));
    [|by destruct H].
  apply (run_invariant (fun t => emitterInv meter t ∧
           addsTo diceRolls (log t) = prints (log t) ∧
           ∀ r c, rollFreq !! r = Some c → addsTo c (log t) = printsOf r (log t)) meter)
    with (ls := ls) (s := init); [|by repeat split|exact Hrun].
  intros l t t' (Hinv & Hd & Hn) Hstep.
  split; [by eapply step_emitterInv|].
  destruct (step_log meter l t t' Hstep) as (evs & -> & Hcase).
  unfold addsTo, prints, printsOf in *.
  assert (Hquietcase : (∀ ev, ev ∈ evs → isRollEvent ev = false) →
            length (filter (fun ev => ev = CounterAdd diceRolls 1) (log t ++ evs)%list)
            = length (filter (fun ev => isPrint ev) (log t ++ evs)%list) ∧
            ∀ r c, rollFreq !! r = Some c →
              length (filter (fun ev => ev = CounterAdd c 1) (log t ++ evs)%list)
              = length (filter (fun ev => ev = Print r) (log t ++ evs)%list)).
  { intros Hq.
    assert (Hnone : ∀ (P : LEvent → Prop) `{!∀ x, Decision (P x)},
              (∀ ev, P ev → isRollEvent ev = true) → filter P evs = []).
    { intros P ? HP. apply filter_none.
      intros ev Hin HPev. specialize (Hq ev Hin). specialize (HP ev HPev). congruence. }
    split; [|intros r c Hrc]; rewrite !count_app.
    - rewrite (Hnone (fun ev => ev = CounterAdd diceRolls 1)) by (by intros ? ->).
      rewrite (Hnone (fun ev => isPrint ev)) by (by intros []).
      simpl. lia.
    - rewrite (Hnone (fun ev => ev = CounterAdd c 1)) by (by intros ? ->).
      rewrite (Hnone (fun ev => ev = Print r)) by (by intros ? ->).
      simpl. rewrite (Hn r c Hrc). lia. }
  destruct Hcase as [[-> _]|[(-> & _)|[(-> & _)|[[(m & n & k & ->) _]|Hroll]]]].
  - apply Hquietcase. by intros ev ?%elem_of_nil.
  - apply Hquietcase. by intros ev ->%list_elem_of_singleton.
  - apply Hquietcase. intros ev Hin. unfold teardown in Hin.
    repeat (apply elem_of_cons in Hin as [->|Hin]; [done|]). by apply elem_of_nil in Hin.
  - apply Hquietcase. by intros ev ->%list_elem_of_singleton.
  - destruct Hroll as (rnd & dr & rf & He & _ & _ & Hroll).
    unfold emitterInv in Hinv. rewrite He in Hinv.
    assert (dr = diceRolls ∧ rf = rollFreq) as [-> ->] by (split; congruence).
    destruct (generateData_roll_events _ _ _ _ Hroll) as (msg & d & c0 & Hc0 & ->).
    pose proof (Hdr _ _ Hc0) as Hne.
    split; [|intros r c Hrc]; rewrite !count_app.
    + rewrite Hd. filter_step. simpl. lia.
    + rewrite (Hn r c Hrc). pose proof (Hdr _ _ Hrc) as Hcd.
      destruct (decide (r = Intn rnd 10)) as [->|Hr].
      * assert (c = c0) as -> by congruence. filter_step. simpl. lia.
      * assert (c ≠ c0) by (intros ->; apply Hr; by eapply Hinj).
        filter_step. simpl. lia.
Qed.

Lemma small_index_cases (idx : Z) :
  0 ≤ idx ≤ 10 →
  idx = 0 ∨ idx = 1 ∨ idx = 2 ∨ idx = 3 ∨ idx = 4 ∨ idx = 5 ∨
  idx = 6 ∨ idx = 7 ∨ idx = 8 ∨ idx = 9 ∨ idx = 10.
Proof. lia. Qed.

(** A meter that names each counter after its instrument hands out
    different counters. *)
Lemma goodMeter_distinct diceRolls rollFreq :
  generateData_setup goodMeter = inr (diceRolls, rollFreq) →
  (∀ idx c, rollFreq !! idx = Some c → c ≠ diceRolls) ∧
  (∀ i j c, rollFreq !! i = Some c → rollFreq !! j = Some c → i = j).
Proof.
  intros Hsetup.
  pose proof (generateData_setup_rollFreq goodMeter _ _ Hsetup) as Hrf.
  assert (Hd : diceRolls = "dice-rolls").
  { unfold generateData_setup in Hsetup. simpl in Hsetup. by injection Hsetup as <- _. }
  assert (Hname : ∀ idx c, rollFreq !! idx = Some c →
            0 ≤ idx ≤ 10 ∧ c = rollCounterName idx).
  { intros idx c Hc. destruct (Hrf idx) as [Hdom Hval].
    assert (0 ≤ idx ≤ 10) as Hr by (apply Hdom; eauto).
    split; [done|].
    assert (Hv : Some c = goodMeter (rollCounterName idx) (rollCounterDescription idx))
      by (rewrite <- Hc; exact (Hval Hr)).
    unfold goodMeter in Hv. by injection Hv. }
  split.
  - intros idx c Hc. destruct (Hname _ _ Hc) as [_ ->]. by rewrite Hd.
  - intros i j c Hi Hj.
    destruct (Hname _ _ Hi) as [Hri ->]. destruct (Hname _ _ Hj) as [Hrj Heq].
    destruct (small_index_cases i Hri) as [->|[->|[->|[->|[->|[->|[->|[->|[->|[->| ->]]]]]]]]]];
    destruct (small_index_cases j Hrj) as [->|[->|[->|[->|[->|[->|[->|[->|[->|[->| ->]]]]]]]]]];
      first [reflexivity | vm_compute in Heq; discriminate Heq].
Qed.

Lemma generateData_counts_witness :
  ∃ diceRolls rollFreq,
    generateData_setup goodMeter = inr (diceRolls, rollFreq) ∧
    reachable goodMeter (stateAfter goodMeter raceSchedule) ∧
    addsTo diceRolls (log (stateAfter goodMeter raceSchedule)) = 1%nat.
Proof.
  destruct (generateData_setup goodMeter) as [ev|[dr rf]] eqn:Hsetup;
    [vm_compute in Hsetup; discriminate Hsetup|].
  assert (Hr : reachable goodMeter (stateAfter goodMeter raceSchedule)).
  { apply reachable_stateAfter. vm_compute. eauto. }
  destruct (goodMeter_distinct dr rf Hsetup) as [Hdr Hinj].
  exists dr, rf. split; [reflexivity|]. split; [exact Hr|].
  destruct (generateData_counts goodMeter dr rf _ Hsetup Hdr Hinj Hr) as [-> _].
  reflexivity.
Defined.

(* ===================================================================== *)
(** ** How the program ends *)
(* ===================================================================== *)

Lemma teardownCount_listener s :
  shutdownInv s →
  teardownCount s = match listener s with Running => 0 | Returned => 1 end%nat ∧
  teardownCalls s = match listener s with Running => [] | Returned => teardown end.
Proof.
  intros [_ Hl]. unfold teardownCount, teardownCalls. destruct (listener s).
  - destruct Hl as [Hq _]. split; [by apply quiet_no_ServerClose | by apply quiet_teardownCalls].
  - destruct Hl as (_ & _ & pre & post & -> & _ & Hq1 & Hq2). split.
    + rewrite !filter_app, !length_app.
      rewrite (quiet_no_ServerClose pre), (quiet_no_ServerClose post) by done. reflexivity.
    + rewrite !filter_app.
      rewrite (quiet_teardownCalls pre), (quiet_teardownCalls post) by done. reflexivity.
Qed.

(** X18. [main] returns only after a complete shutdown: when [wg.Wait] has
    returned, the three tasks have returned, the context is cancelled, and
    the teardown has run, once and in order. Without a cancellation or an
    interrupt the program never ends by itself. *)
Theorem exit_after_shutdown meter s :
  reachable meter s →
  exited s = true →
  listener s = Returned ∧ emitter s = EReturned ∧ server s = Returned ∧
  wg s = 0 ∧ cancelled s = true ∧
  teardownCalls s = [ServerClose; LogShutdown; TraceShutdown; MeterShutdown].
Proof.
  intros Hreach Hex.
  destruct (reachable_wgInv meter s Hreach) as [Hwg Hzero].
  specialize (Hzero Hex). rewrite Hzero in Hwg.
  assert (Hl : listener s = Returned).
  { destruct (listener s), (emitter s), (server s); simpl in Hwg; (done || lia). }
  assert (He : emitter s = EReturned).
  { destruct (listener s), (emitter s), (server s); simpl in Hwg; (done || lia). }
  assert (Hs : server s = Returned).
  { destruct (listener s), (emitter s), (server s); simpl in Hwg; (done || lia). }
  pose proof (reachable_shutdownInv meter s Hreach) as Hinv.
  destruct (teardownCount_listener s Hinv) as [_ Hcalls].
  destruct Hinv as [_ Hlis]. rewrite Hl in Hlis, Hcalls.
  destruct Hlis as (Hc & _). done.
Qed.

Lemma exit_after_shutdown_witness :
  reachable goodMeter (stateAfter goodMeter raceSchedule) ∧
  exited (stateAfter goodMeter raceSchedule) = true ∧
  wg (stateAfter goodMeter raceSchedule) = 0.
Proof.
  assert (Hr : reachable goodMeter (stateAfter goodMeter raceSchedule)).
  { apply reachable_stateAfter. vm_compute. eauto. }
  split; [exact Hr|]. split; [reflexivity|].
  destruct (exit_after_shutdown goodMeter _ Hr eq_refl) as (_ & _ & _ & Hwg & _).
  exact Hwg.
Defined.



(* ===================================================================== *)
(** ** A triggered shutdown can always complete *)
(* ===================================================================== *)

Lemma reachable_invariants meter s :
  reachable meter s → shutdownInv s ∧ wgInv s ∧ emitterInv meter s.
Proof.
  intros H. split; [by eapply reachable_shutdownInv|].
  split; [by eapply reachable_wgInv | by eapply reachable_emitterInv].
Qed.

(** The listener's part: teardown after a cancellation, with [cancel] first
    after an interrupt. *)
Lemma listener_phase meter s :
  reachable meter s → exited s = false →
  cancelled s = true ∨ interrupt s = 1%nat →
  ∃ s1, run meter (listenerSchedule s) s = Some s1 ∧
        listener s1 = Returned ∧ cancelled s1 = true ∧ exited s1 = false ∧
        emitter s1 = emitter s ∧ server s1 = server s.
Proof.
  intros Hreach Hex Htrig. unfold listenerSchedule.
  destruct (reachable_invariants meter s Hreach) as ([_ Hl] & _ & _).
  destruct (listener s) eqn:Hlis.
  - destruct (cancelled s) eqn:Hc.
    + simpl. unfold step, handleTermination_step. rewrite Hex, Hlis, Hc.
      eexists. split; [reflexivity|]. by repeat split.
    + destruct Htrig as [?|Hint]; [done|].
      simpl. unfold step at 1, handleTermination_step. rewrite Hex, Hlis, Hint.
      unfold cancel. simpl. rewrite Hc.
      unfold step, handleTermination_step. simpl. rewrite Hex, Hlis.
      eexists. split; [reflexivity|]. by repeat split.
  - simpl. exists s. destruct Hl as (Hc & _). by repeat split.
Qed.

(** The emitter's part: it finishes its setup if need be, polls the
    cancelled context and returns. *)
Lemma emitter_phase meter s s1 :
  reachable meter s1 → exited s1 = false → cancelled s1 = true →
  emitter s1 = emitter s →
  ∃ s2, run meter (emitterSchedule meter s) s1 = Some s2 ∧
        emitter s2 = EReturned ∧ cancelled s2 = true ∧ exited s2 = false ∧
        listener s2 = listener s1 ∧ server s2 = server s1.
Proof.
  intros Hreach Hex Hc He. unfold emitterSchedule. rewrite <- He.
  destruct (reachable_invariants meter s1 Hreach) as (_ & _ & Hinv).
  unfold emitterInv in Hinv.
  destruct (emitter s1) as [|dr rf| |] eqn:Hem.
  - destruct (generateData_setup meter) as [ev|[dr rf]] eqn:Hsetup.
    + simpl. unfold step, generateData_step. rewrite Hex, Hem, Hsetup.
      eexists. split; [reflexivity|]. by repeat split.
    + simpl. unfold step at 1, generateData_step. rewrite Hex, Hem, Hsetup.
      unfold step, generateData_step. simpl. rewrite Hex, Hc.
      eexists. split; [reflexivity|]. by repeat split.
  - simpl. unfold step, generateData_step. rewrite Hex, Hem, Hc.
    eexists. split; [reflexivity|]. by repeat split.
  - simpl. exists s1. by repeat split.
  - done.
Qed.

(** The server's part: closed by the teardown, [ListenAndServe] returns. *)
Lemma server_phase meter s s2 :
  reachable meter s2 → exited s2 = false → listener s2 = Returned →
  server s2 = server s →
  ∃ s3, run meter (serverSchedule s) s2 = Some s3 ∧
        server s3 = Returned ∧ exited s3 = false ∧
        listener s3 = listener s2 ∧ emitter s3 = emitter s2.
Proof.
  intros Hreach Hex Hl Hs. unfold serverSchedule. rewrite <- Hs.
  destruct (reachable_invariants meter s2 Hreach) as ([_ Hlis] & _ & _).
  rewrite Hl in Hlis. destruct Hlis as (_ & Hclosed & _).
  destruct (server s2) eqn:Hsrv.
  - simpl. unfold step, servePprof_step. rewrite Hex, Hsrv, Hclosed.
    eexists. split; [reflexivity|]. by repeat split.
  - simpl. exists s2. by repeat split.
Qed.

(** X20. Shutdown completes. In every state the program can reach, once the
    context is cancelled or an interrupt is waiting, the schedule
    [shutdownSchedule] can be run to its end: the listener tears down, the
    other two tasks return, [wg.Wait] returns and [main] ends, with the
    teardown run exactly once. *)
Theorem shutdown_completes meter s :
  reachable meter s →
  cancelled s = true ∨ interrupt s = 1%nat →
  ∃ s', run meter (shutdownSchedule meter s) s = Some s' ∧
        exited s' = true ∧ teardownCount s' = 1%nat.
Proof.
  intros Hreach Htrig.
  assert (Hend : ∀ t, reachable meter t → exited t = true → teardownCount t = 1%nat).
  { intros t Ht Hex. destruct (reachable_invariants meter t Ht) as (Hsd & [Hwg Hzero] & _).
    destruct (teardownCount_listener t Hsd) as [-> _].
    specialize (Hzero Hex). rewrite Hzero in Hwg.
    destruct (listener t); [|done].
    destruct (emitter t), (server t); simpl in Hwg; lia. }
  unfold shutdownSchedule. destruct (exited s) eqn:Hex.
  { exists s. split; [done|]. split; [done | by apply Hend]. }
  destruct (listener_phase meter s Hreach Hex Htrig)
    as (s1 & Hrun1 & Hl1 & Hc1 & Hex1 & He1 & Hs1).
  pose proof (reachable_run meter _ s s1 Hreach Hrun1) as Hreach1.
  destruct (emitter_phase meter s s1 Hreach1 Hex1 Hc1 He1)
    as (s2 & Hrun2 & He2 & Hc2 & Hex2 & Hl2 & Hs2).
  pose proof (reachable_run meter _ s1 s2 Hreach1 Hrun2) as Hreach2.
  destruct (server_phase meter s s2 Hreach2 Hex2 ltac:(congruence) ltac:(congruence))
    as (s3 & Hrun3 & Hs3 & Hex3 & Hl3 & He3).
  pose proof (reachable_run meter _ s2 s3 Hreach2 Hrun3) as Hreach3.
  destruct (reachable_invariants meter s3 Hreach3) as (_ & [Hwg _] & _).
  assert (Hzero : wg s3 = 0).
  { rewrite Hwg, Hl3, Hl2, Hl1, He3, He2, Hs3. reflexivity. }
  assert (Hrun4 : run meter [MainExit] s3 = Some (set_exited (cancel s3))).
  { simpl. unfold step. rewrite Hex3. by rewrite decide_True. }
  exists (set_exited (cancel s3)).
  assert (Hall : run meter (listenerSchedule s ++ emitterSchedule meter s
                             ++ serverSchedule s ++ [MainExit])%list s
                 = Some (set_exited (cancel s3))).
  { by rewrite run_app, Hrun1, run_app, Hrun2, run_app, Hrun3. }
  split; [exact Hall|]. split; [reflexivity|].
  apply Hend; [|reflexivity]. by eapply reachable_run.
Qed.

Lemma shutdown_completes_witness :
  reachable goodMeter (stateAfter goodMeter [EmitterSetup; EmitterIterate 4; Signal]) ∧
  ∃ s', run goodMeter
          (shutdownSchedule goodMeter
             (stateAfter goodMeter [EmitterSetup; EmitterIterate 4; Signal]))
          (stateAfter goodMeter [EmitterSetup; EmitterIterate 4; Signal]) = Some s' ∧
        exited s' = true ∧ teardownCount s' = 1%nat.
Proof.
  assert (Hr : reachable goodMeter
                 (stateAfter goodMeter [EmitterSetup; EmitterIterate 4; Signal])).
  { apply reachable_stateAfter. vm_compute. eauto. }
  split; [exact Hr|].
  apply (shutdown_completes goodMeter _ Hr). right. reflexivity.
Defined.

(* ===================================================================== *)
(** ** The environment after loadConfig *)
(* ===================================================================== *)

(** X11. When the dotenv file loads, the environment the call leaves, however
    it ends, is the old one completed by the file: every variable that was
    set keeps its value, every other key of the file is set to the file's
    value, and nothing else changes. *)
Theorem loadConfig_environment cfg path p m :
  files p !! resolvePath path = Some (inr m) →
  environ (final (loadConfig cfg path p)) = environ p ∪ m ∧
  ∀ key, Getenv key (final (loadConfig cfg path p)) =
           match environ p !! key with
           | Some v => v
           | None => default "" (m !! key)
           end.
Proof.
  intros Hfile.
  assert (He : environ (final (loadConfig cfg path p)) = environ p ∪ m).
  { rewrite loadConfig_cases, Hfile.
    destruct (registerAndParse_envPorts cfg (afterLoad (resolvePath path) p)) as [-> _].
    unfold afterLoad. by rewrite Hfile. }
  split; [exact He|]. intros key. unfold Getenv. rewrite He, lookup_union.
  destruct (environ p !! key), (m !! key); reflexivity.
Qed.

Lemma loadConfig_environment_witness :
  Getenv "servicename" (final (loadConfig 0%nat "" threeSources)) = "from-env" ∧
  Getenv "collectorgrpcurl" (final (loadConfig 0%nat "" threeSources)) = "file:4317".
Proof.
  destruct (loadConfig_environment 0%nat "" threeSources
              {[ "servicename" := "from-file"; "pprofurl" := "file:1777";
                 "collectorgrpcurl" := "file:4317" ]}) as [_ Hget];
    [vm_compute; reflexivity|].
  split; rewrite Hget; vm_compute; reflexivity.
Defined.
